(** * rospkg.rosdistro.distro: a shallow embedding and its properties

    The development follows [src/rospkg/rosdistro/distro.py]: rule
    expansion ([expand_rule]), version normalisation ([_distro_version]),
    variant resolution ([Variant.__init__]), the queries of [Distro] and
    the loader ([load_distro]).  Python exceptions are values of [exn],
    computations that may raise live in the [result] monad, dictionaries
    are finite maps.

    A name that no scope binds raises as it does in Python: the
    modules [re] and [string], which [_distro_version] uses and the
    module does not import, the variable [y] of [load_distro], the bare
    [get_released_stacks] of [Distro.get_stack_names], the attribute
    [release_name] of a stack.  The helpers [get_rules] and
    [load_vcs_config], which the module calls and does not define, are
    parameters: what is proved of [_load_distro_stacks] holds for every
    behaviour they may have.  [distro_version_imported] is
    [_distro_version] with the two imports added. *)

From Stdlib Require Import ZArith Ascii String List Bool Lia DecimalString.
From stdpp Require Import base option list gmap strings fin_maps.

Open Scope string_scope.
Open Scope Z_scope.

(* ===================================================================== *)
(** ** Exceptions and the result monad *)
(* ===================================================================== *)

(** The exception classes the module defines (lines 42-44) and the
    builtin ones its code can raise. [InvalidDistro] is a subclass of
    [DistroException]. *)
Inductive exn : Type :=
| DistroException
| InvalidDistro
| KeyError (key : string)
| NameError (name : string)
| AttributeError (name : string)
| TypeError
| IndexError
| RecursionDepthExceeded.

(** [except DistroException] catches both classes of the module. *)
Definition is_DistroError (e : exn) : bool :=
  match e with
  | DistroException | InvalidDistro => true
  | _ => false
  end.

Inductive result (A : Type) : Type :=
| Ok (a : A)
| Raise (e : exn).
Arguments Ok {A} a.
Arguments Raise {A} e.

#[global] Instance result_ret : MRet result := @Ok.
#[global] Instance result_bind : MBind result :=
  λ A B (k : A → result B) (r : result A),
    match r with
    | Ok a => k a
    | Raise e => Raise e
    end.

(** An outcome that does not come from the bound on nested calls. *)
Definition settled {A : Type} (r : result A) : Prop :=
  match r with
  | Raise RecursionDepthExceeded => False
  | _ => True
  end.

(** Left fold of a computation that may raise: a [for] loop whose body
    updates one accumulator. *)
Fixpoint foldM {A B : Type} (f : B → A → result B) (acc : B) (l : list A)
  : result B :=
  match l with
  | [] => Ok acc
  | x :: l' => acc' ← f acc x; foldM f acc' l'
  end.

(* ===================================================================== *)
(** ** The string builtins the module uses *)
(* ===================================================================== *)

(** [s.startswith(t)] *)
Fixpoint startswith (t s : string) : bool :=
  match t with
  | EmptyString => true
  | String a t' =>
      match s with
      | EmptyString => false
      | String b s' => if Ascii.eqb a b then startswith t' s' else false
      end
  end.

(** [s.find(t)]: the lowest index at which [t] occurs in [s], [-1] when
    it does not occur. [find_from] carries the index of the head of [s]. *)
Fixpoint find_from (t s : string) (i : Z) : Z :=
  if startswith t s then i
  else match s with
       | EmptyString => -1
       | String _ s' => find_from t s' (i + 1)
       end.

Definition find (s t : string) : Z := find_from t s 0.

(** [t in s] for strings. *)
Definition contains (s t : string) : bool := 0 <=? find s t.

(** [s.replace(old, new)]: every non-overlapping occurrence of [old],
    scanning from the left, becomes [new].  [replace_go] walks [s] once;
    [skip] counts the characters of a matched occurrence still to drop. *)
Fixpoint replace_go (old new : string) (skip : nat) (s : string) : string :=
  match s with
  | EmptyString => EmptyString
  | String c s' =>
      match skip with
      | S k => replace_go old new k s'
      | O =>
          if startswith old s
          then new +:+ replace_go old new (String.length old - 1)%nat s'
          else String c (replace_go old new 0 s')
      end
  end.

(** With an empty [old] Python puts [new] before every character and at
    the end. *)
Fixpoint replace_empty (new s : string) : string :=
  match s with
  | EmptyString => new
  | String c s' => new +:+ String c (replace_empty new s')
  end.

Definition replace (s old new : string) : string :=
  match old with
  | EmptyString => replace_empty new s
  | String _ _ => replace_go old new 0 s
  end.

(** [t] occurs in [s] at index [n]; [n] is the index of its first
    occurrence. *)
Definition occurs_at (t s : string) (n : nat) : Prop :=
  ∃ a b, s = a +:+ t +:+ b ∧ String.length a = n.

Definition first_at (t s : string) (n : nat) : Prop :=
  occurs_at t s n ∧ ∀ m, (m < n)%nat → ¬ occurs_at t s m.

(** Truth value of an optional string argument: [None] and [''] are
    false, every other string is true. *)
Definition truthy (o : option string) : bool :=
  match o with
  | None => false
  | Some EmptyString => false
  | Some (String _ _) => true
  end.

(** The value of an optional string in a branch where it is true. *)
Definition the_str (o : option string) : string := default "" o.

(* ===================================================================== *)
(** ** expand_rule (lines 46-55) *)
(* ===================================================================== *)

(** Lines 47-50: the string on which the revision test is evaluated. *)
Definition expand_names (rule stack_name : string) (stack_ver : option string)
    (release_name : string) : string :=
  let s := replace rule "$STACK_NAME" stack_name in
  let s := if truthy stack_ver
           then replace s "$STACK_VERSION" (the_str stack_ver)
           else s in
  replace s "$RELEASE_NAME" release_name.

Definition expand_rule (rule stack_name : string) (stack_ver : option string)
    (release_name : string) (revision : option string) : result string :=
  let s := expand_names rule stack_name stack_ver release_name in
  if (0 <? find s "$REVISION") && negb (truthy revision)
  then Raise DistroException
  else if truthy revision
       then Ok (replace s "$REVISION" (the_str revision))
       else Ok s.

(* ===================================================================== *)
(** ** _distro_version (lines 224-237) *)
(* ===================================================================== *)

(** The fragment of [re] patterns the module needs: a literal character,
    or a starred character class, which may be the pattern's group. *)
Inductive re_item : Type :=
| Lit (c : ascii)
| StarOf (cls : ascii → bool) (group : bool).

(** Backtracking match of a pattern at the head of a string; a star is
    greedy: it first tries to take one more character and only then lets
    the rest of the pattern continue.  The result is the text of the
    group (the pattern has one group). *)
Fixpoint re_match (pat : list re_item) : string → option string :=
  match pat with
  | [] => λ _, Some EmptyString
  | Lit c :: pat' =>
      λ s, match s with
           | EmptyString => None
           | String b s' => if Ascii.eqb c b then re_match pat' s' else None
           end
  | StarOf cls group :: pat' =>
      fix star (s : string) : option string :=
        match s with
        | EmptyString => re_match pat' s
        | String b s' =>
            if cls b
            then match star s' with
                 | Some g => Some (if group then String b g else g)
                 | None => re_match pat' s
                 end
            else re_match pat' s
        end
  end.

(** [re.search(pat, s)]: the match at the leftmost position that has one;
    [m.group(1)] is what is returned. *)
Fixpoint re_search (pat : list re_item) (s : string) : option string :=
  match re_match pat s with
  | Some g => Some g
  | None =>
      match s with
      | EmptyString => None
      | String _ s' => re_search pat s'
      end
  end.

Definition in_range (lo hi : nat) (c : ascii) : bool :=
  (lo <=? nat_of_ascii c)%nat && (nat_of_ascii c <=? hi)%nat.

(** [\s] of a byte-string pattern: space, \t, \n, \v, \f, \r. *)
Definition is_space (c : ascii) : bool :=
  in_range 9 13 c || (nat_of_ascii c =? 32)%nat.

(** [[0-9]] *)
Definition is_digit (c : ascii) : bool := in_range 48 57 c.

(** The pattern of line 229: the literal [$Revision:], a run of white
    space, the group (a run of digits), a run of white space, and a
    literal [$]; each run may be empty. *)
Definition revision_re : list re_item :=
  map Lit (list_ascii_of_string "$Revision:")
  ++ [StarOf is_space false; StarOf is_digit true; StarOf is_space false;
      Lit "$"%char].

(** Every character of the string is in the class. *)
Fixpoint all_in (cls : ascii → bool) (s : string) : bool :=
  match s with
  | EmptyString => true
  | String c s' => cls c && all_in cls s'
  end.

(** No character of the string is a dollar sign. *)
Definition no_dollar (s : string) : bool :=
  all_in (λ c, negb (Ascii.eqb c "$")) s.

(** The head of [r], if any, is outside the class. *)
Definition stops (cls : ascii → bool) (r : string) : Prop :=
  match r with
  | EmptyString => True
  | String c _ => cls c = false
  end.

(** [m] is a revision marker with digits [ds]; [s] contains such a
    marker. *)
Definition is_marker (m ds : string) : Prop :=
  ∃ ws1 ws2,
    m = "$Revision:" +:+ ws1 +:+ ds +:+ ws2 +:+ "$"
    ∧ all_in is_space ws1 = true
    ∧ all_in is_digit ds = true
    ∧ all_in is_space ws2 = true.

Definition has_marker (s ds : string) : Prop :=
  ∃ pre m post, s = pre +:+ m +:+ post ∧ is_marker m ds.

(** [string.ascii_letters], [string.digits]. *)
Definition ascii_letters : string :=
  "abcdefghijklmnopqrstuvwxyzABCDEFGHIJKLMNOPQRSTUVWXYZ".
Definition digits : string := "0123456789".

(** Line 234. *)
Definition valid : string := ascii_letters +:+ digits +:+ ".+~".

(** The characters of [[A-Za-z0-9.+~]]. *)
Definition allowed_char (c : ascii) : bool :=
  in_range 65 90 c || in_range 97 122 c || in_range 48 57 c
  || Ascii.eqb c "." || Ascii.eqb c "+" || Ascii.eqb c "~".

(** A version value as the YAML loader hands it over: a string or an
    integer. *)
Inductive scalar : Type :=
| SStr (s : string)
| SInt (z : Z).

(** [str(version_val)] *)
Definition py_str (v : scalar) : string :=
  match v with
  | SStr s => s
  | SInt z => NilZero.string_of_int (Z.to_int z)
  end.

(** Lines 229-231: a value in which the marker is found becomes ['r']
    followed by the group. *)
Definition revision_to_version (version_val : string) : string :=
  match re_search revision_re version_val with
  | Some g => "r" +:+ g
  | None => version_val
  end.

(** Line 235: [False in (c in valid for c in version_val)]. *)
Definition has_invalid_char (version_val : string) : bool :=
  existsb (λ c, negb (contains valid (String c EmptyString)))
          (list_ascii_of_string version_val).

(** Lines 228-237 as they run once [re] and [string] are imported:
    the two names then stand for the Python standard modules. *)
Definition distro_version_imported (version_val : scalar) : result string :=
  let version_val := py_str version_val in
  let version_val := revision_to_version version_val in
  if has_invalid_char version_val
  then Raise InvalidDistro
  else Ok version_val.

(* ===================================================================== *)
(** ** Dictionaries *)
(* ===================================================================== *)

(** [d[key]] *)
Definition getitem {V : Type} (d : gmap string V) (key : string) : result V :=
  match d !! key with
  | Some v => Ok v
  | None => Raise (KeyError key)
  end.

(** [key in d] *)
Definition has_key {V : Type} (d : gmap string V) (key : string) : bool :=
  bool_decide (is_Some (d !! key)).

(** [d.keys()], a list in the iteration order of the dictionary. *)
Definition keys {V : Type} (d : gmap string V) : list string :=
  (map_to_list d).*1.

(** A name that no scope binds at the point of use. *)
Definition unbound {A : Type} (name : string) : result A :=
  Raise (NameError name).

(** Lines 224-237.  The module imports [os], [sys], [urllib2] and
    [yaml] (lines 37-40) and nothing else: [re] at line 229 and [string]
    at line 234 are names that no scope binds.  Line 229 is reached
    first. *)
Definition _distro_version (version_val : scalar) : result string :=
  let version_val := py_str version_val in
  re_search ← unbound (A := list re_item → string → option string) "re";
  let version_val := match re_search revision_re version_val with
                     | Some g => "r" +:+ g
                     | None => version_val
                     end in
  letters_and_digits ← unbound (A := string) "string";
  let valid := letters_and_digits +:+ ".+~" in
  if existsb (λ c, negb (contains valid (String c EmptyString)))
             (list_ascii_of_string version_val)
  then Raise InvalidDistro
  else Ok version_val.

(* ===================================================================== *)
(** ** Variant (lines 84-125) *)
(* ===================================================================== *)

(** A value in the properties of a variant: a string or a sequence of
    strings. *)
Inductive prop_val : Type :=
| PStr (s : string)
| PList (l : list string).

(** [list(v)]: a sequence is copied, a string gives its characters. *)
Definition py_list (v : prop_val) : list string :=
  match v with
  | PList l => l
  | PStr s => map (λ c, String c EmptyString) (list_ascii_of_string s)
  end.

(** Lines 117-118: a string stands for the list with that one name. *)
Definition str_or_list (extends : prop_val) : list string :=
  match extends with
  | PStr e => [e]
  | PList l => l
  end.

Module Variant.

Record t : Type := mk {
  name : string;
  parents : list string;
  stack_names : list string;
  stack_names_explicit : list string;
  _props : gmap string prop_val
}.

(** The constructor calls itself on every parent; [depth] is the
    number of nested calls the interpreter still allows. *)
Fixpoint __init__ (depth : nat) (variant_name : string)
    (variants_props : gmap string (gmap string prop_val)) : result t :=
  match depth with
  | O => Raise RecursionDepthExceeded
  | S depth' =>
      props ← getitem variants_props variant_name;
      if negb (has_key props "stacks") && negb (has_key props "extends")
      then Raise InvalidDistro
      else
        let stack_names0 := py_list (default (PList []) (props !! "stacks")) in
        let stack_names_explicit0 := stack_names0 in
        match props !! "extends" with
        | Some extends =>
            let extends := str_or_list extends in
            stack_names1 ←
              foldM (λ (acc : list string) (e : string),
                       parent_variant ← __init__ depth' e variants_props;
                       Ok (stack_names parent_variant ++ acc)%list)
                    stack_names0 extends;
            Ok (mk variant_name extends stack_names1 stack_names_explicit0
                   props)
        | None =>
            Ok (mk variant_name [] stack_names0 stack_names_explicit0 props)
        end
  end.

End Variant.

(** The step of the loop of lines 122-124. *)
Definition prepend_parent (depth : nat)
    (variants_props : gmap string (gmap string prop_val))
    (acc : list string) (e : string) : result (list string) :=
  parent_variant ← Variant.__init__ depth e variants_props;
  Ok (Variant.stack_names parent_variant ++ acc)%list.

(** A table without cycles: every variant has [stacks] or [extends], and
    each parent is in the table with a smaller rank. *)
Definition well_ranked (variants_props : gmap string (gmap string prop_val))
    (rank : string → nat) : Prop :=
  ∀ n props,
    variants_props !! n = Some props →
    (is_Some (props !! "stacks") ∨ is_Some (props !! "extends"))
    ∧ ∀ ext e, props !! "extends" = Some ext →
               e ∈ str_or_list ext →
               is_Some (variants_props !! e) ∧ (rank e < rank n)%nat.

(* ===================================================================== *)
(** ** DistroStack and Distro (lines 57-82, 127-156) *)
(* ===================================================================== *)

Module DistroStack.

(** The attributes of a stack object; [version] is [None], [''] or a
    version string. *)
Record t : Type := mk {
  name : string;
  _rules : gmap string string;
  version : option string;
  vcs_config : gmap string string;
  repo : option string
}.

Section Construction.

(** [load_vcs_config] is called by line 69 and defined nowhere in
    the module; it is given the rules and the function that expands
    one rule. *)
Variable load_vcs_config :
  gmap string string → (string → result string)
  → result (gmap string string).

(** Lines 71-75.  No line gives a stack object the attribute
    [release_name]. *)
Definition _expand_rule (name : string) (version : option string)
    (rule : string) : result string :=
  release_name ← Raise (AttributeError "release_name");
  expand_rule rule name version release_name None.

(** Lines 60-69. *)
Definition __init__ (stack_name : string) (rules : gmap string string)
    (stack_version : option string) : result t :=
  vcs_config ← load_vcs_config rules (_expand_rule stack_name stack_version);
  Ok (mk stack_name rules stack_version vcs_config (rules !! "repo")).

End Construction.

(** What a stack may be compared with: another stack, or an object of
    another class. *)
Inductive other : Type :=
| IsStack (o : t)
| NotStack.

(** Lines 77-82. *)
Definition __eq__ (self : t) (other : other) : bool :=
  match other with
  | NotStack => false
  | IsStack o =>
      bool_decide (name self = name o)
      && bool_decide (version self = version o)
      && bool_decide (vcs_config self = vcs_config o)
  end.

End DistroStack.

(** The manifest as the YAML loader returns it: a dictionary whose keys
    may be missing. *)
Record manifest : Type := mk_manifest {
  m_release : option string;
  m_version : option scalar;
  m_stacks : option (gmap string (gmap string string));
  m_variants : option (list (gmap string (gmap string prop_val)))
}.

(** [raw_data[key]] for one of the keys above. *)
Definition getkey {V : Type} (key : string) (field : option V) : result V :=
  match field with
  | Some v => Ok v
  | None => Raise (KeyError key)
  end.

Module Distro.

Record t : Type := mk {
  stacks : gmap string DistroStack.t;
  variants : gmap string Variant.t;
  release_name : string;
  version : string;
  raw_data : manifest
}.

(** Lines 148-153. *)
Definition get_released_stacks (self : t) : gmap string DistroStack.t :=
  map_fold (λ s obj retval,
              if truthy (DistroStack.version obj)
              then <[s := obj]> retval
              else retval)
           ∅ (stacks self).

(** Lines 142-146.  Line 144 calls [get_released_stacks] as a global
    function; the module binds that name only as an attribute of the
    class. *)
Definition get_stack_names (self : t) (released : bool)
  : result (list string) :=
  if released
  then f ← unbound (A := unit → gmap string DistroStack.t)
             "get_released_stacks";
       Ok (keys (f tt))
  else Ok (keys (stacks self)).

End Distro.

(* ===================================================================== *)
(** ** load_distro (lines 158-195) *)
(* ===================================================================== *)

(** What lines 162-171 leave behind: the loader failed with a
    [YAMLError], or it returned the manifest.  (An error of the file
    system or of the network is not caught and is not modelled.) *)
Inductive yaml_load : Type :=
| YAMLError
| Loaded (raw_data : manifest).

(** [x[0]] *)
Definition head_char (x : string) : result ascii :=
  match x with
  | EmptyString => Raise IndexError
  | String c _ => Ok c
  end.

(** Line 175: the keys that do not start with an underscore. *)
Fixpoint public_names (ks : list string) : result (list string) :=
  match ks with
  | [] => Ok []
  | x :: ks' =>
      c ← head_char x;
      rest ← public_names ks';
      Ok (if Ascii.eqb c "_" then rest else x :: rest)
  end.

(** Lines 181-185: one step of the loop over the variants sequence. *)
Definition add_variant_props
    (variant_props : gmap string (gmap string prop_val))
    (props : gmap string (gmap string prop_val))
  : result (gmap string (gmap string prop_val)) :=
  match keys props with
  | [n] => p ← getitem props n; Ok (<[n := p]> variant_props)
  | _ => Raise InvalidDistro
  end.

(** [except KeyError] of line 188. *)
Definition except_KeyError {A : Type} (r : result A) : result A :=
  match r with
  | Raise (KeyError _) => Raise InvalidDistro
  | _ => r
  end.

Section Stacks.

(** [get_rules] (line 220) and [load_vcs_config] (line 69) are called
    and defined nowhere in the module. *)
Variable get_rules : manifest → string → result (gmap string string).
Variable load_vcs_config :
  gmap string string → (string → result string)
  → result (gmap string string).

(** Lines 214-221: one step of the loop over the stack names. *)
Definition load_stack (distro_doc : manifest)
    (stack_props : gmap string (gmap string string))
    (stacks : gmap string DistroStack.t) (stack_name : string)
  : result (gmap string DistroStack.t) :=
  c ← head_char stack_name;
  if Ascii.eqb c "_"
  then Ok stacks
  else
    props ← getitem stack_props stack_name;
    let stack_version := props !! "version" in
    rules ← get_rules distro_doc stack_name;
    obj ← DistroStack.__init__ load_vcs_config stack_name rules stack_version;
    Ok (<[stack_name := obj]> stacks).

(** Lines 197-222. *)
Definition _load_distro_stacks (distro_doc : manifest)
    (stack_names : list string) : result (gmap string DistroStack.t) :=
  stack_props ← match m_stacks distro_doc with
                | Some stack_props => Ok stack_props
                | None => Raise DistroException
                end;
  foldM (load_stack distro_doc stack_props) ∅ stack_names.

(** What the loop stores for a stack name. *)
Definition stored (distro_doc : manifest)
    (stack_props : gmap string (gmap string string))
    (n : string) (obj : DistroStack.t) : Prop :=
  ∃ props rules,
    stack_props !! n = Some props
    ∧ get_rules distro_doc n = Ok rules
    ∧ load_vcs_config rules
        (DistroStack._expand_rule n (props !! "version"))
      = Ok (DistroStack.vcs_config obj)
    ∧ DistroStack.name obj = n
    ∧ DistroStack.version obj = props !! "version"
    ∧ DistroStack._rules obj = rules
    ∧ DistroStack.repo obj = rules !! "repo".

End Stacks.

(** Lines 173-189.  The name [y] of lines 174 and 181 is bound neither
    in the function nor in the module. *)
Definition load_distro_try (raw_data : manifest)
  : result (list string * string * string
            * gmap string (gmap string prop_val)) :=
  except_KeyError (
    y ← unbound (A := manifest) "y";
    stack_props ← getkey "stacks" (m_stacks y);
    stack_names ← public_names (keys stack_props);
    version ← _distro_version (default (SStr "0") (m_version raw_data));
    release_name ← getkey "release" (m_release raw_data);
    variants_seq ← getkey "variants" (m_variants y);
    variant_props ← foldM add_variant_props ∅ variants_seq;
    Ok (stack_names, version, release_name, variant_props)).

(** Line 191 passes [release_name] and [version] by keyword to
    [_load_distro_stacks], whose parameters are [distro_doc] and
    [stack_names] (line 197): the call raises [TypeError], and lines
    192-195 are never run. *)
Definition load_distro (source : yaml_load) : result Distro.t :=
  match source with
  | YAMLError => Raise InvalidDistro
  | Loaded raw_data =>
      _ ← load_distro_try raw_data;
      Raise TypeError
  end.

(* ===================================================================== *)
(** * Properties *)
(* ===================================================================== *)

(** ** Strings *)

Lemma app_cons (c : ascii) (s r : string) :
  String c s +:+ r = String c (s +:+ r).
Proof. reflexivity. Qed.

Lemma app_empty_l (s : string) : "" +:+ s = s.
Proof. reflexivity. Qed.

Lemma app_empty_r (s : string) : s +:+ "" = s.
Proof. induction s as [|c s IH]; [done | by rewrite app_cons, IH]. Qed.

Lemma app_assoc_str (a b c : string) : (a +:+ b) +:+ c = a +:+ (b +:+ c).
Proof. induction a as [|x a IH]; [done | by rewrite !app_cons, IH]. Qed.

Lemma length_app_str (a b : string) :
  String.length (a +:+ b) = (String.length a + String.length b)%nat.
Proof. induction a as [|x a IH]; [done | rewrite app_cons; simpl; by rewrite IH]. Qed.

Lemma startswith_spec (t s : string) :
  startswith t s = true ↔ ∃ r, s = t +:+ r.
Proof.
  revert s. induction t as [|a t IH]; intros s; simpl.
  - split; [eauto | done].
  - destruct s as [|b s].
    + split; [done | intros [r Hr]; discriminate].
    + destruct (Ascii.eqb_spec a b) as [->|Hne].
      * rewrite IH. split; intros [r Hr]; exists r; [by rewrite Hr | by inversion Hr].
      * split; [done | intros [r Hr]; inversion Hr; congruence].
Qed.

Lemma startswith_app (t r : string) : startswith t (t +:+ r) = true.
Proof. apply startswith_spec. eauto. Qed.

Lemma occurs_at_0 (t s : string) : occurs_at t s 0 ↔ startswith t s = true.
Proof.
  rewrite startswith_spec. split.
  - intros (a & b & -> & Hlen). destruct a; [|done]. simpl. eauto.
  - intros [r ->]. exists "", r. done.
Qed.

Lemma occurs_at_S (t : string) (c : ascii) (s : string) (n : nat) :
  occurs_at t (String c s) (S n) ↔ occurs_at t s n.
Proof.
  split.
  - intros (a & b & Heq & Hlen). destruct a as [|x a]; [done|].
    simpl in *. inversion Heq; subst. exists a, b. split; [done | lia].
  - intros (a & b & -> & Hlen). exists (String c a), b. simpl. split; [done | lia].
Qed.

Lemma occurs_at_nil (t : string) (n : nat) :
  occurs_at t "" n → t = "" ∧ n = 0%nat.
Proof.
  intros (a & b & Heq & Hlen). destruct a; [|done]. destruct t; [|done]. done.
Qed.

Lemma find_from_lower (t s : string) (j : Z) :
  find_from t s j = -1 ∨ j ≤ find_from t s j.
Proof.
  revert j. induction s as [|c s IH]; intros j; simpl.
  - destruct (startswith t ""); lia.
  - destruct (startswith t (String c s)); [lia|].
    destruct (IH (j + 1)); lia.
Qed.

(** [find_from] returns [-1] or the offset plus the index found from 0. *)
Lemma find_from_shift (t s : string) (i : Z) :
  0 ≤ i →
  find_from t s i = if find_from t s 0 =? -1 then -1 else i + find_from t s 0.
Proof.
  revert i. induction s as [|c s IH]; intros i Hi; simpl.
  - destruct (startswith t ""); simpl; [lia | done].
  - destruct (startswith t (String c s)); simpl; [lia|].
    rewrite (IH (i + 1)), (IH (0 + 1)) by lia.
    destruct (find_from_lower t s 0) as [E|E].
    + rewrite E. done.
    + destruct (find_from t s 0 =? -1) eqn:E1; [apply Z.eqb_eq in E1; lia|].
      destruct (0 + 1 + find_from t s 0 =? -1) eqn:E2; [apply Z.eqb_eq in E2; lia|].
      lia.
Qed.

(** The two outcomes of [find], in terms of occurrences. *)
Lemma find_first (t s : string) :
  (find s t = -1 ∧ ∀ n, ¬ occurs_at t s n)
  ∨ (∃ n, find s t = Z.of_nat n ∧ first_at t s n).
Proof.
  unfold find. induction s as [|c s IH]; simpl.
  - destruct (startswith t "") eqn:E.
    + right. exists 0%nat. split; [done|]. split; [by apply occurs_at_0 | lia].
    + left. split; [done|]. intros n Hn.
      apply occurs_at_nil in Hn as [-> _]. done.
  - destruct (startswith t (String c s)) eqn:E.
    + right. exists 0%nat. split; [done|]. split; [by apply occurs_at_0 | lia].
    + rewrite find_from_shift by lia.
      destruct IH as [[-> Hno]|(n & -> & Hocc & Hfirst)].
      * left. split; [done|]. intros [|n] Hn.
        -- apply occurs_at_0 in Hn. congruence.
        -- apply occurs_at_S in Hn. by apply (Hno n).
      * right. exists (S n). split.
        { destruct (Z.of_nat n =? -1) eqn:E1; [apply Z.eqb_eq in E1; lia | lia]. }
        split; [by apply occurs_at_S|].
        intros [|m] Hm Hocc'.
        -- apply occurs_at_0 in Hocc'. congruence.
        -- apply occurs_at_S in Hocc'. apply (Hfirst m); [lia | done].
Qed.

Lemma first_at_unique (t s : string) (n m : nat) :
  first_at t s n → first_at t s m → n = m.
Proof.
  intros [Hn Hn'] [Hm Hm'].
  destruct (Nat.lt_trichotomy n m) as [H|[H|H]]; [|done|].
  - by destruct (Hm' n H).
  - by destruct (Hn' m H).
Qed.

(** [find] is positive exactly when the first occurrence is past the
    start of the string. *)
Lemma find_pos_iff (t s : string) :
  0 < find s t ↔ ∃ n, (0 < n)%nat ∧ first_at t s n.
Proof.
  destruct (find_first t s) as [[E Hno]|(n & E & Hn)]; rewrite E.
  - split; [lia|]. intros (n & _ & Hn & _). by destruct (Hno n).
  - split.
    + intros H. exists n. split; [lia | done].
    + intros (m & Hm & Hfm). rewrite (first_at_unique _ _ _ _ Hn Hfm). lia.
Qed.

Lemma find_absent_iff (t s : string) :
  find s t = -1 ↔ ∀ n, ¬ occurs_at t s n.
Proof.
  destruct (find_first t s) as [[E Hno]|(n & E & Hn & _)]; rewrite E.
  - done.
  - split; [lia|]. intros Hno. by destruct (Hno n).
Qed.

Lemma contains_false_iff (t s : string) :
  contains s t = false ↔ ∀ n, ¬ occurs_at t s n.
Proof.
  rewrite <- find_absent_iff. unfold contains.
  destruct (find_first t s) as [[E _]|(n & E & _)]; rewrite E.
  - split; [done|]. intros _. by apply Z.leb_gt.
  - split; [|lia]. intros H. apply Z.leb_gt in H. lia.
Qed.

Lemma find_first_at (t s : string) (n : nat) :
  find s t = Z.of_nat n → first_at t s n.
Proof.
  intros E. destruct (find_first t s) as [[E' _]|(m & E' & Hm)]; [lia|].
  by replace n with m by lia.
Qed.

(** *** replace *)

Lemma replace_go_skip (old new a rest : string) :
  replace_go old new (String.length a) (a +:+ rest) = replace_go old new 0 rest.
Proof. induction a as [|c a IH]; [done | by rewrite app_cons]. Qed.

(** An occurrence at the head is replaced and the scan resumes after it. *)
Lemma replace_match (old new rest : string) :
  old ≠ "" →
  replace (old +:+ rest) old new = new +:+ replace rest old new.
Proof.
  intros Hne. destruct old as [|x old']; [done|]. unfold replace.
  rewrite app_cons. cbn [replace_go].
  rewrite <- app_cons, startswith_app.
  replace (String.length (String x old') - 1)%nat with (String.length old')
    by (simpl; lia).
  by rewrite replace_go_skip.
Qed.

(** A character at which [old] does not start is copied. *)
Lemma replace_nomatch (old new : string) (c : ascii) (s : string) :
  startswith old (String c s) = false →
  replace (String c s) old new = String c (replace s old new).
Proof.
  intros Hs. destruct old as [|x old']; [done|]. unfold replace.
  cbn [replace_go]. by rewrite Hs.
Qed.

Lemma first_at_tail (t : string) (c : ascii) (s : string) (n : nat) :
  first_at t (String c s) (S n) →
  startswith t (String c s) = false ∧ first_at t s n.
Proof.
  intros [Hocc Hfirst]. split.
  - destruct (startswith t (String c s)) eqn:E; [|done].
    destruct (Hfirst 0%nat); [lia | by apply occurs_at_0].
  - split; [by apply occurs_at_S in Hocc|].
    intros m Hm Hocc'. apply (Hfirst (S m)); [lia | by apply occurs_at_S].
Qed.

(** The leftmost occurrence of [old] is replaced by [new]; what precedes
    it is kept and what follows it is scanned in turn. *)
Lemma replace_leftmost (old new p rest : string) :
  old ≠ "" →
  first_at old (p +:+ old +:+ rest) (String.length p) →
  replace (p +:+ old +:+ rest) old new = p +:+ new +:+ replace rest old new.
Proof.
  intros Hne. induction p as [|c p IH]; intros Hfirst.
  - rewrite !app_empty_l. by apply replace_match.
  - rewrite !app_cons in *. simpl in Hfirst.
    apply first_at_tail in Hfirst as [Hs Hfirst].
    rewrite replace_nomatch by done. by rewrite IH.
Qed.

(** A string in which [old] does not occur is left as it is. *)
Lemma replace_absent (s old new : string) :
  (∀ n, ¬ occurs_at old s n) → replace s old new = s.
Proof.
  induction s as [|c s IH]; intros Hno.
  - destruct old; [|done]. destruct (Hno 0%nat). by apply occurs_at_0.
  - rewrite replace_nomatch.
    + rewrite IH; [done|]. intros n Hn. apply (Hno (S n)). by apply occurs_at_S.
    + destruct (startswith old (String c s)) eqn:E; [|done].
      destruct (Hno 0%nat). by apply occurs_at_0.
Qed.

(** *** Strings without a dollar sign *)

Lemma all_in_app (cls : ascii → bool) (a b : string) :
  all_in cls (a +:+ b) = all_in cls a && all_in cls b.
Proof.
  induction a as [|c a IH]; [done|].
  rewrite app_cons. simpl. by rewrite IH, andb_assoc.
Qed.

Lemma no_dollar_app (a b : string) :
  no_dollar (a +:+ b) = no_dollar a && no_dollar b.
Proof. apply all_in_app. Qed.

(** Nothing that starts with a dollar sign occurs in a string without
    one. *)
Lemma no_dollar_absent (s t : string) (n : nat) :
  no_dollar s = true → ¬ occurs_at (String "$" t) s n.
Proof.
  intros Hs (a & b & -> & _). rewrite no_dollar_app, app_cons in Hs.
  apply andb_true_iff in Hs as [_ Hs]. discriminate Hs.
Qed.

Lemma replace_no_dollar (s old new : string) :
  no_dollar s = true → replace s (String "$" old) new = s.
Proof. intros Hs. apply replace_absent. intros n. by apply no_dollar_absent. Qed.

Lemma find_no_dollar (s t : string) :
  no_dollar s = true → find s (String "$" t) = -1.
Proof. intros Hs. apply find_absent_iff. intros n. by apply no_dollar_absent. Qed.

(** A prefix without dollar signs is copied. *)
Lemma replace_no_dollar_prefix (pre s old new : string) :
  no_dollar pre = true →
  replace (pre +:+ s) (String "$" old) new
  = pre +:+ replace s (String "$" old) new.
Proof.
  induction pre as [|c pre IH]; intros Hpre; [done|].
  unfold no_dollar in Hpre. simpl in Hpre.
  apply andb_true_iff in Hpre as [Hc Hpre].
  rewrite !app_cons, replace_nomatch, IH; [done..|].
  change (startswith (String "$" old) (String c (pre +:+ s)))
    with (if Ascii.eqb "$" c then startswith old (pre +:+ s) else false).
  rewrite Ascii.eqb_sym. by destruct (Ascii.eqb c "$").
Qed.

(** The one occurrence of a token between two texts without dollar
    signs is replaced. *)
Lemma replace_single (pre post old new : string) :
  no_dollar pre = true → no_dollar post = true →
  replace (pre +:+ String "$" old +:+ post) (String "$" old) new
  = pre +:+ new +:+ post.
Proof.
  intros Hpre Hpost.
  by rewrite replace_no_dollar_prefix, replace_match, replace_no_dollar.
Qed.

(** What line 51-55 do with a string that has no dollar sign. *)
Lemma expand_rule_finish (s : string) (revision : option string) :
  no_dollar s = true →
  (if (0 <? find s "$REVISION") && negb (truthy revision)
   then Raise DistroException
   else if truthy revision
        then Ok (replace s "$REVISION" (the_str revision))
        else Ok s) = Ok s.
Proof.
  intros Hs. rewrite find_no_dollar, replace_no_dollar by done.
  by destruct (truthy revision).
Qed.

(** A token is not touched when another token is replaced. *)
Ltac keep_token :=
  rewrite replace_no_dollar_prefix by done;
  repeat rewrite app_cons; rewrite app_empty_l;
  repeat (rewrite replace_nomatch by reflexivity);
  rewrite replace_no_dollar by done;
  reflexivity.

Lemma replace_other_token (pre post tok old new : string) :
  no_dollar pre = true → no_dollar post = true →
  (tok = "$RELEASE_NAME" ∧ old = "$STACK_NAME")
  ∨ (tok = "$RELEASE_NAME" ∧ old = "$STACK_VERSION")
  ∨ (tok = "$STACK_VERSION" ∧ old = "$STACK_NAME")
  ∨ (tok = "$REVISION" ∧ old = "$STACK_NAME")
  ∨ (tok = "$REVISION" ∧ old = "$STACK_VERSION")
  ∨ (tok = "$REVISION" ∧ old = "$RELEASE_NAME") →
  replace (pre +:+ tok +:+ post) old new = pre +:+ tok +:+ post.
Proof.
  intros Hpre Hpost
    [[-> ->]|[[-> ->]|[[-> ->]|[[-> ->]|[[-> ->]|[-> ->]]]]]]; keep_token.
Qed.

Lemma no_dollar_single (pre new post : string) :
  no_dollar pre = true → no_dollar new = true → no_dollar post = true →
  no_dollar (pre +:+ new +:+ post) = true.
Proof. intros H1 H2 H3. by rewrite !no_dollar_app, H1, H2, H3. Qed.

(** Lines 51-55 on a string without a dollar sign. *)
Ltac finish_plain :=
  rewrite ?replace_no_dollar by done;
  rewrite find_no_dollar by done;
  match goal with |- context [truthy ?r] => by destruct (truthy r) end.


Lemma find_from_nomatch (t : string) (c : ascii) (s : string) (i : Z) :
  startswith t (String c s) = false →
  find_from t (String c s) i = find_from t s (i + 1).
Proof. intros H. cbn [find_from]. by rewrite H. Qed.

Lemma find_from_no_dollar (s t : string) (i : Z) :
  no_dollar s = true → find_from (String "$" t) s i = -1.
Proof.
  revert i. induction s as [|c s IH]; intros i Hs; [done|].
  unfold no_dollar in Hs. simpl in Hs. apply andb_true_iff in Hs as [Hc Hs].
  rewrite find_from_nomatch; [by apply IH|].
  change (startswith (String "$" t) (String c s))
    with (if Ascii.eqb "$" c then startswith t s else false).
  rewrite Ascii.eqb_sym. by destruct (Ascii.eqb c "$").
Qed.

(** A prefix without dollar signs is skipped by [find]. *)
Lemma find_from_no_dollar_prefix (pre s t : string) (i : Z) :
  no_dollar pre = true →
  find_from (String "$" t) (pre +:+ s) i
  = find_from (String "$" t) s (i + Z.of_nat (String.length pre)).
Proof.
  revert i. induction pre as [|c pre IH]; intros i Hpre.
  - rewrite app_empty_l. f_equal. simpl. lia.
  - unfold no_dollar in Hpre. simpl in Hpre.
    apply andb_true_iff in Hpre as [Hc Hpre].
    rewrite app_cons, find_from_nomatch.
    + rewrite IH by done. f_equal. cbn [String.length]. lia.
    + change (startswith (String "$" t) (String c (pre +:+ s)))
        with (if Ascii.eqb "$" c then startswith t (pre +:+ s) else false).
      rewrite Ascii.eqb_sym. by destruct (Ascii.eqb c "$").
Qed.

(** The token after a text without dollar signs is found at the length
    of that text. *)
Lemma find_single (pre post t : string) :
  no_dollar pre = true →
  find (pre +:+ String "$" t +:+ post) (String "$" t)
  = Z.of_nat (String.length pre).
Proof.
  intros Hpre. unfold find. rewrite find_from_no_dollar_prefix by done.
  destruct (String "$" t +:+ post) eqn:E; cbn [find_from];
    rewrite <- E, startswith_app; lia.
Qed.

(** The version token holds no revision token, and is not touched when
    the release name is replaced. *)
Lemma find_revision_in_version (pre post : string) :
  no_dollar pre = true → no_dollar post = true →
  find (pre +:+ "$STACK_VERSION" +:+ post) "$REVISION" = -1.
Proof.
  intros Hpre Hpost. unfold find. rewrite find_from_no_dollar_prefix by done.
  repeat rewrite app_cons. rewrite app_empty_l.
  repeat (rewrite find_from_nomatch by reflexivity).
  by apply find_from_no_dollar.
Qed.

Lemma replace_version_kept (pre post new : string) :
  no_dollar pre = true → no_dollar post = true →
  replace (pre +:+ "$STACK_VERSION" +:+ post) "$RELEASE_NAME" new
  = pre +:+ "$STACK_VERSION" +:+ post.
Proof. intros Hpre Hpost. keep_token. Qed.

(** ** expand_rule *)

(** None of the three tokens of lines 47-50 starts inside a leading
    [$REVISION], which therefore stays where it is. *)
Ltac copy_heads :=
  repeat rewrite app_cons; rewrite app_empty_l;
  repeat (rewrite replace_nomatch by reflexivity);
  reflexivity.

Lemma replace_revision_head (rest old new : string) :
  old = "$STACK_NAME" ∨ old = "$STACK_VERSION" ∨ old = "$RELEASE_NAME" →
  replace ("$REVISION" +:+ rest) old new = "$REVISION" +:+ replace rest old new.
Proof. intros [->|[->| ->]]; copy_heads. Qed.

Lemma expand_names_revision_head (rest stack_name : string)
    (stack_ver : option string) (release_name : string) :
  expand_names ("$REVISION" +:+ rest) stack_name stack_ver release_name
  = "$REVISION" +:+ expand_names rest stack_name stack_ver release_name.
Proof.
  unfold expand_names.
  rewrite (replace_revision_head rest "$STACK_NAME") by auto.
  destruct (truthy stack_ver).
  - rewrite (replace_revision_head _ "$STACK_VERSION") by auto.
    by rewrite (replace_revision_head _ "$RELEASE_NAME") by auto.
  - by rewrite (replace_revision_head _ "$RELEASE_NAME") by auto.
Qed.

Lemma find_head (t r : string) : find (t +:+ r) t = 0.
Proof.
  unfold find. destruct (t +:+ r) eqn:E; simpl; rewrite <- E, startswith_app; done.
Qed.

(** The revision test of line 51, for a revision that is false. *)
Lemma expand_rule_no_revision (rule stack_name : string)
    (stack_ver : option string) (release_name : string)
    (revision : option string) :
  truthy revision = false →
  expand_rule rule stack_name stack_ver release_name revision
  = if 0 <? find (expand_names rule stack_name stack_ver release_name) "$REVISION"
    then Raise DistroException
    else Ok (expand_names rule stack_name stack_ver release_name).
Proof.
  intros H. unfold expand_rule. rewrite H. simpl. rewrite andb_true_r. done.
Qed.

Lemma expand_rule_with_revision (rule stack_name : string)
    (stack_ver : option string) (release_name : string) (c : ascii) (r : string) :
  expand_rule rule stack_name stack_ver release_name (Some (String c r))
  = Ok (replace (expand_names rule stack_name stack_ver release_name)
                "$REVISION" (String c r)).
Proof. unfold expand_rule. simpl. by rewrite andb_false_r. Qed.

(** *** Rules with one token *)

Lemma expand_rule_name_token (pre post stack_name : string)
    (stack_ver : option string) (release_name : string)
    (revision : option string) :
  no_dollar pre = true → no_dollar post = true →
  no_dollar stack_name = true →
  expand_rule (pre +:+ "$STACK_NAME" +:+ post)
              stack_name stack_ver release_name revision
  = Ok (pre +:+ stack_name +:+ post).
Proof.
  intros Hpre Hpost Hn.
  pose proof (no_dollar_single pre stack_name post Hpre Hn Hpost) as Hn'.
  unfold expand_rule, expand_names.
  rewrite (replace_single pre post) by done.
  destruct (truthy stack_ver);
    rewrite ?(replace_no_dollar (pre +:+ stack_name +:+ post)) by done;
    finish_plain.
Qed.

Lemma expand_rule_release_token (pre post stack_name : string)
    (stack_ver : option string) (release_name : string)
    (revision : option string) :
  no_dollar pre = true → no_dollar post = true →
  no_dollar release_name = true →
  expand_rule (pre +:+ "$RELEASE_NAME" +:+ post)
              stack_name stack_ver release_name revision
  = Ok (pre +:+ release_name +:+ post).
Proof.
  intros Hpre Hpost Hr.
  pose proof (no_dollar_single pre release_name post Hpre Hr Hpost) as Hr'.
  unfold expand_rule, expand_names.
  rewrite (replace_other_token pre post "$RELEASE_NAME" "$STACK_NAME")
    by auto.
  destruct (truthy stack_ver);
    rewrite ?(replace_other_token pre post "$RELEASE_NAME" "$STACK_VERSION")
      by auto 10;
    rewrite (replace_single pre post) by done;
    finish_plain.
Qed.

Lemma expand_rule_version_token (pre post stack_name : string)
    (c : ascii) (ver release_name : string) (revision : option string) :
  no_dollar pre = true → no_dollar post = true →
  no_dollar (String c ver) = true →
  expand_rule (pre +:+ "$STACK_VERSION" +:+ post)
              stack_name (Some (String c ver)) release_name revision
  = Ok (pre +:+ String c ver +:+ post).
Proof.
  intros Hpre Hpost Hv.
  pose proof (no_dollar_single pre (String c ver) post Hpre Hv Hpost) as Hv'.
  unfold expand_rule, expand_names. cbn [truthy the_str default].
  rewrite (replace_other_token pre post "$STACK_VERSION" "$STACK_NAME")
    by auto 10.
  rewrite (replace_single pre post) by done.
  rewrite (replace_no_dollar (pre +:+ String c ver +:+ post)) by done.
  finish_plain.
Qed.

Lemma expand_rule_version_absent (pre post stack_name : string)
    (stack_ver : option string) (release_name : string)
    (revision : option string) :
  no_dollar pre = true → no_dollar post = true →
  truthy stack_ver = false →
  expand_rule (pre +:+ "$STACK_VERSION" +:+ post)
              stack_name stack_ver release_name revision
  = Ok (pre +:+ "$STACK_VERSION" +:+ post).
Proof.
  intros Hpre Hpost Hv. unfold expand_rule, expand_names. rewrite Hv.
  rewrite (replace_other_token pre post "$STACK_VERSION" "$STACK_NAME")
    by auto 10.
  rewrite replace_version_kept, find_revision_in_version by done.
  cbn [Z.ltb Z.compare andb].
  destruct (truthy revision); [|done].
  rewrite replace_absent; [done|]. apply find_absent_iff.
  by apply find_revision_in_version.
Qed.

Lemma expand_names_revision_kept (pre post stack_name : string)
    (stack_ver : option string) (release_name : string) :
  no_dollar pre = true → no_dollar post = true →
  expand_names (pre +:+ "$REVISION" +:+ post)
               stack_name stack_ver release_name
  = pre +:+ "$REVISION" +:+ post.
Proof.
  intros Hpre Hpost. unfold expand_names.
  rewrite (replace_other_token pre post "$REVISION" "$STACK_NAME") by auto 10.
  destruct (truthy stack_ver);
    rewrite ?(replace_other_token pre post "$REVISION" "$STACK_VERSION")
      by auto 10;
    by rewrite (replace_other_token pre post "$REVISION" "$RELEASE_NAME")
      by auto 10.
Qed.

Lemma expand_rule_revision_token (pre post stack_name : string)
    (stack_ver : option string) (release_name : string)
    (c : ascii) (r : string) :
  no_dollar pre = true → no_dollar post = true →
  expand_rule (pre +:+ "$REVISION" +:+ post)
              stack_name stack_ver release_name (Some (String c r))
  = Ok (pre +:+ String c r +:+ post).
Proof.
  intros Hpre Hpost. rewrite expand_rule_with_revision.
  rewrite expand_names_revision_kept by done.
  by rewrite (replace_single pre post).
Qed.

Lemma expand_rule_revision_missing (pre post stack_name : string)
    (stack_ver : option string) (release_name : string) :
  no_dollar pre = true → no_dollar post = true → pre ≠ "" →
  expand_rule (pre +:+ "$REVISION" +:+ post)
              stack_name stack_ver release_name None
  = Raise DistroException.
Proof.
  intros Hpre Hpost Hne. rewrite expand_rule_no_revision by done.
  rewrite expand_names_revision_kept, find_single by done.
  destruct pre as [|c pre]; [done|]. done.
Qed.

(** C3: with no revision (absent, or the empty string, which the test of
    line 51 treats alike) expansion raises [DistroException] exactly when
    the first occurrence of [$REVISION] in the string built by lines 47-50
    is at a strictly positive index, and returns that string otherwise;
    a supplied, non-empty revision replaces [$REVISION]; a rule that
    starts with [$REVISION] does not raise without a revision and the
    result still starts with the token.  In a rule that is the token
    between two texts without dollar signs, a non-empty revision takes
    the place of the token, and without a revision the rule raises as
    soon as the text before the token is not empty.  Replacing means:
    the leftmost occurrence becomes the revision and the scan goes on
    after it; a string without the token is kept. *)
Theorem expand_rule_revision_guard (rule stack_name : string)
    (stack_ver : option string) (release_name : string) :
  let s := expand_names rule stack_name stack_ver release_name in
  (expand_rule rule stack_name stack_ver release_name None = Raise DistroException
   ↔ ∃ n, (0 < n)%nat ∧ first_at "$REVISION" s n)
  ∧ (expand_rule rule stack_name stack_ver release_name None = Raise DistroException
     ∨ expand_rule rule stack_name stack_ver release_name None = Ok s)
  ∧ expand_rule rule stack_name stack_ver release_name (Some "")
    = expand_rule rule stack_name stack_ver release_name None
  ∧ (∀ c r, expand_rule rule stack_name stack_ver release_name (Some (String c r))
            = Ok (replace s "$REVISION" (String c r)))
  ∧ (∀ rest,
       let s0 := expand_names rest stack_name stack_ver release_name in
       expand_rule ("$REVISION" +:+ rest) stack_name stack_ver release_name None
       = Ok ("$REVISION" +:+ s0))
  ∧ (∀ pre post c r,
       no_dollar pre = true → no_dollar post = true →
       expand_rule (pre +:+ "$REVISION" +:+ post)
                   stack_name stack_ver release_name (Some (String c r))
       = Ok (pre +:+ String c r +:+ post))
  ∧ (∀ pre post,
       no_dollar pre = true → no_dollar post = true → pre ≠ "" →
       expand_rule (pre +:+ "$REVISION" +:+ post)
                   stack_name stack_ver release_name None
       = Raise DistroException)
  ∧ (∀ p rest c r,
       first_at "$REVISION" (p +:+ "$REVISION" +:+ rest) (String.length p) →
       replace (p +:+ "$REVISION" +:+ rest) "$REVISION" (String c r)
       = p +:+ String c r +:+ replace rest "$REVISION" (String c r))
  ∧ (∀ t c r,
       (∀ n, ¬ occurs_at "$REVISION" t n) →
       replace t "$REVISION" (String c r) = t)
  ∧ expand_rule "tag/$REVISION" "foo" (Some "1.2") "bar" None
    = Raise DistroException
  ∧ expand_rule "tag/$REVISION" "foo" (Some "1.2") "bar" (Some "42")
    = Ok "tag/42".
Proof.
  intros s. split_and!; try reflexivity.
  - rewrite expand_rule_no_revision by done. fold s. split.
    + intros H. apply find_pos_iff.
      by destruct (0 <? find s "$REVISION") eqn:E; [apply Z.ltb_lt|].
    + intros H%find_pos_iff. apply Z.ltb_lt in H. by rewrite H.
  - rewrite expand_rule_no_revision by done. fold s.
    destruct (0 <? find s "$REVISION"); auto.
  - intros c r. apply expand_rule_with_revision.
  - intros rest s0. rewrite expand_rule_no_revision by done.
    rewrite expand_names_revision_head. fold s0. by rewrite find_head.
  - intros. by apply expand_rule_revision_token.
  - intros. by apply expand_rule_revision_missing.
  - intros. by apply replace_leftmost.
  - intros. by apply replace_absent.
Qed.

(** The revision [42] takes the place of the token after [tag/], and
    without a revision the same rule raises. *)
Lemma expand_rule_revision_guard_witness :
  expand_rule ("tag/" +:+ "$REVISION" +:+ "/src") "foo" (Some "1.2") "bar"
              (Some "42")
  = Ok ("tag/" +:+ "42" +:+ "/src")
  ∧ expand_rule ("tag/" +:+ "$REVISION" +:+ "/src") "foo" (Some "1.2") "bar"
                None
    = Raise DistroException.
Proof.
  destruct (expand_rule_revision_guard "" "foo" (Some "1.2") "bar")
    as (_ & _ & _ & _ & _ & Hsub & Hmiss & _).
  split.
  - apply Hsub; reflexivity.
  - apply Hmiss; [reflexivity | reflexivity | discriminate].
Defined.

(** C4: lines 47-50 replace [$STACK_NAME] by the stack name, then
    [$STACK_VERSION] by the version when there is one (a missing or empty
    version leaves the token alone), then [$RELEASE_NAME] by the release
    name, and whenever the string so built holds no [$REVISION] it is
    what [expand_rule] returns, for every revision.  In a rule that is
    one token between two texts without dollar signs the token is
    replaced by its value (itself without a dollar sign) and the texts
    are kept; the version token stays when the version is missing or
    empty.  Replacing means: the leftmost occurrence becomes the new
    text and the scan goes on after it, until no occurrence is left.
    The function reads nothing but its arguments, so the model is a
    function of them alone. *)
Theorem expand_rule_substitutes (rule stack_name release_name : string) :
  (∀ c v,
     expand_names rule stack_name (Some (String c v)) release_name
     = replace (replace (replace rule "$STACK_NAME" stack_name)
                        "$STACK_VERSION" (String c v))
               "$RELEASE_NAME" release_name)
  ∧ expand_names rule stack_name None release_name
    = replace (replace rule "$STACK_NAME" stack_name)
              "$RELEASE_NAME" release_name
  ∧ expand_names rule stack_name (Some "") release_name
    = expand_names rule stack_name None release_name
  ∧ (∀ stack_ver revision,
       let s := expand_names rule stack_name stack_ver release_name in
       expand_rule rule stack_name stack_ver release_name revision
         = Raise DistroException
       ∨ expand_rule rule stack_name stack_ver release_name revision = Ok s
       ∨ expand_rule rule stack_name stack_ver release_name revision
         = Ok (replace s "$REVISION" (the_str revision)))
  ∧ (∀ stack_ver revision,
       let s := expand_names rule stack_name stack_ver release_name in
       contains s "$REVISION" = false →
       expand_rule rule stack_name stack_ver release_name revision = Ok s)
  ∧ (∀ pre post stack_ver revision,
       no_dollar pre = true → no_dollar post = true →
       no_dollar stack_name = true →
       expand_rule (pre +:+ "$STACK_NAME" +:+ post)
                   stack_name stack_ver release_name revision
       = Ok (pre +:+ stack_name +:+ post))
  ∧ (∀ pre post stack_ver revision,
       no_dollar pre = true → no_dollar post = true →
       no_dollar release_name = true →
       expand_rule (pre +:+ "$RELEASE_NAME" +:+ post)
                   stack_name stack_ver release_name revision
       = Ok (pre +:+ release_name +:+ post))
  ∧ (∀ pre post c ver revision,
       no_dollar pre = true → no_dollar post = true →
       no_dollar (String c ver) = true →
       expand_rule (pre +:+ "$STACK_VERSION" +:+ post)
                   stack_name (Some (String c ver)) release_name revision
       = Ok (pre +:+ String c ver +:+ post))
  ∧ (∀ pre post stack_ver revision,
       no_dollar pre = true → no_dollar post = true →
       stack_ver = None ∨ stack_ver = Some "" →
       expand_rule (pre +:+ "$STACK_VERSION" +:+ post)
                   stack_name stack_ver release_name revision
       = Ok (pre +:+ "$STACK_VERSION" +:+ post))
  ∧ (∀ old new p rest,
       old ≠ "" →
       first_at old (p +:+ old +:+ rest) (String.length p) →
       replace (p +:+ old +:+ rest) old new = p +:+ new +:+ replace rest old new)
  ∧ (∀ s old new, (∀ n, ¬ occurs_at old s n) → replace s old new = s)
  ∧ expand_rule "$STACK_NAME-$STACK_VERSION.tar.gz" "foo" (Some "1.2") "bar" None
    = Ok "foo-1.2.tar.gz".
Proof.
  split_and!; try reflexivity.
  - intros stack_ver revision s. unfold expand_rule. fold s.
    destruct ((0 <? find s "$REVISION") && negb (truthy revision)); [by left|].
    destruct (truthy revision); auto.
  - intros stack_ver revision s Hc. unfold expand_rule. fold s.
    assert ((0 <? find s "$REVISION") = false) as ->.
    { unfold contains in Hc. apply Z.leb_gt in Hc. apply Z.ltb_ge. lia. }
    cbn [andb]. destruct (truthy revision); [|done].
    rewrite replace_absent; [done|]. by apply contains_false_iff.
  - intros. by apply expand_rule_name_token.
  - intros. by apply expand_rule_release_token.
  - intros. by apply expand_rule_version_token.
  - intros pre post stack_ver revision Hpre Hpost Hv.
    apply expand_rule_version_absent; [done..|].
    by destruct Hv as [-> | ->].
  - intros. by apply replace_leftmost.
  - intros. by apply replace_absent.
Qed.

(** The rule of the example expands, whatever the revision, since
    nothing asks for one; a stack name takes the place of its token; a
    version token stays when there is no version. *)
Lemma expand_rule_substitutes_witness :
  expand_rule "$STACK_NAME-$STACK_VERSION.tar.gz" "foo" (Some "1.2") "bar"
              (Some "42")
  = Ok "foo-1.2.tar.gz"
  ∧ expand_rule ("lib/" +:+ "$STACK_NAME" +:+ ".git") "foo" None "bar" None
    = Ok ("lib/" +:+ "foo" +:+ ".git")
  ∧ expand_rule ("tags/" +:+ "$STACK_VERSION" +:+ "") "foo" None "bar" None
    = Ok ("tags/" +:+ "$STACK_VERSION" +:+ "")
  ∧ replace ("lib/" +:+ "$STACK_NAME" +:+ ".git") "$STACK_NAME" "foo"
    = "lib/" +:+ "foo" +:+ replace ".git" "$STACK_NAME" "foo"
  ∧ replace ".git" "$STACK_NAME" "foo" = ".git".
Proof.
  split_and!.
  - apply (proj1 (proj2 (proj2 (proj2 (proj2
             (expand_rule_substitutes "$STACK_NAME-$STACK_VERSION.tar.gz"
                                      "foo" "bar")))))
             (Some "1.2") (Some "42")).
    reflexivity.
  - destruct (expand_rule_substitutes "" "foo" "bar")
      as (_ & _ & _ & _ & _ & Hname & _).
    apply Hname; reflexivity.
  - destruct (expand_rule_substitutes "" "foo" "bar")
      as (_ & _ & _ & _ & _ & _ & _ & _ & Habsent & _).
    apply Habsent; [reflexivity | reflexivity | by left].
  - destruct (expand_rule_substitutes "" "" "")
      as (_ & _ & _ & _ & _ & _ & _ & _ & _ & Hl & _).
    apply Hl; [done|]. apply find_first_at. reflexivity.
  - destruct (expand_rule_substitutes "" "" "")
      as (_ & _ & _ & _ & _ & _ & _ & _ & _ & _ & Ha & _).
    apply Ha. apply contains_false_iff. reflexivity.
Defined.

(** C5, as stated, fails: a rule without [$REVISION] whose stack name
    brings the token in raises without a revision and expands with one. *)
Lemma expand_rule_revision_dependence :
  ¬ (∀ t n v r rev1 rev2,
       contains t "$REVISION" = false →
       expand_rule t n v r rev1 = expand_rule t n v r rev2).
Proof.
  intros H.
  specialize (H "x$STACK_NAME" "$REVISION" None "bar" None (Some "42") eq_refl).
  vm_compute in H. discriminate H.
Qed.

(** C5, amended: when the string built by lines 47-50 does not contain
    [$REVISION], the result, a raised error included, is the same for
    every revision argument. *)
Theorem expand_rule_revision_independent (t n : string) (v : option string)
    (r : string) (rev1 rev2 : option string) :
  contains (expand_names t n v r) "$REVISION" = false →
  expand_rule t n v r rev1 = expand_rule t n v r rev2.
Proof.
  intros Hc.
  assert (∀ rev, expand_rule t n v r rev = Ok (expand_names t n v r)) as H.
  { intros rev. unfold expand_rule.
    assert ((0 <? find (expand_names t n v r) "$REVISION") = false) as ->.
    { unfold contains in Hc. apply Z.leb_gt in Hc. apply Z.ltb_ge. lia. }
    cbn [andb]. destruct (truthy rev); [|done].
    rewrite replace_absent; [done|]. by apply contains_false_iff. }
  by rewrite !H.
Qed.

(** The tarball rule of the specification expands to a string without
    [$REVISION]: its result is the same with and without a revision. *)
Lemma expand_rule_revision_independent_witness :
  expand_rule "$STACK_NAME-$STACK_VERSION.tar.gz" "foo" (Some "1.2") "bar" None
  = expand_rule "$STACK_NAME-$STACK_VERSION.tar.gz" "foo" (Some "1.2") "bar"
                (Some "42").
Proof. apply expand_rule_revision_independent. reflexivity. Defined.

(** C10: without a revision the test of line 51 looks at the string left
    by the three substitutions, not at the rule: expansion raises exactly
    when [find] is positive on that string, and rules that do not contain
    [$REVISION] raise once the stack name, the version or the release
    name puts the token at a positive index. *)
Theorem expand_rule_guard_after_substitution :
  (∀ rule n v r,
     expand_rule rule n v r None = Raise DistroException
     ↔ 0 < find (expand_names rule n v r) "$REVISION")
  ∧ (contains "x$STACK_NAME" "$REVISION" = false
     ∧ ∀ v r, expand_rule "x$STACK_NAME" "$REVISION" v r None
              = Raise DistroException)
  ∧ (contains "x$STACK_VERSION" "$REVISION" = false
     ∧ ∀ r, expand_rule "x$STACK_VERSION" "foo" (Some "$REVISION") r None
            = Raise DistroException)
  ∧ (contains "x$RELEASE_NAME" "$REVISION" = false
     ∧ ∀ v, expand_rule "x$RELEASE_NAME" "foo" v "$REVISION" None
            = Raise DistroException).
Proof.
  split_and!; try reflexivity.
  - intros rule n v r. rewrite expand_rule_no_revision by done.
    destruct (0 <? find _ _) eqn:E.
    + by apply Z.ltb_lt in E.
    + apply Z.ltb_ge in E. split; [done | lia].
  - intros [[|c v]|] r; reflexivity.
  - intros [[|c v]|]; reflexivity.
Qed.

(** ** _distro_version *)

(** *** The matcher *)

Lemma re_match_lit (c : ascii) (pat : list re_item) (s : string) :
  re_match (Lit c :: pat) (String c s) = re_match pat s.
Proof. simpl. by rewrite Ascii.eqb_refl. Qed.

Lemma re_match_lit_inv (c : ascii) (pat : list re_item) (s g : string) :
  re_match (Lit c :: pat) s = Some g →
  ∃ s', s = String c s' ∧ re_match pat s' = Some g.
Proof.
  destruct s as [|b s']; simpl; [done|].
  destruct (Ascii.eqb_spec c b) as [->|]; [eauto | done].
Qed.

Lemma re_match_star_nil (cls : ascii → bool) (group : bool)
    (pat : list re_item) (r : string) :
  stops cls r →
  re_match (StarOf cls group :: pat) r = re_match pat r.
Proof. destruct r as [|c r]; simpl; [done | by intros ->]. Qed.

(** A run of the class followed by something the rest of the pattern
    matches is taken whole. *)
Lemma re_match_star_run (cls : ascii → bool) (group : bool)
    (pat : list re_item) (w r g : string) :
  all_in cls w = true →
  stops cls r →
  re_match pat r = Some g →
  re_match (StarOf cls group :: pat) (w +:+ r)
  = Some (if group then w +:+ g else g).
Proof.
  intros Hw Hr Hg. induction w as [|c w IH].
  - rewrite app_empty_l, re_match_star_nil, Hg by done. by destruct group.
  - simpl in Hw. apply andb_true_iff in Hw as [Hc Hw].
    specialize (IH Hw). rewrite app_cons.
    change (re_match (StarOf cls group :: pat) (String c (w +:+ r)))
      with (if cls c
            then match re_match (StarOf cls group :: pat) (w +:+ r) with
                 | Some g => Some (if group then String c g else g)
                 | None => re_match pat (String c (w +:+ r))
                 end
            else re_match pat (String c (w +:+ r))).
    rewrite Hc, IH. by destruct group.
Qed.

Lemma re_match_star_inv (cls : ascii → bool) (group : bool)
    (pat : list re_item) (s g : string) :
  re_match (StarOf cls group :: pat) s = Some g →
  ∃ w r g', s = w +:+ r ∧ all_in cls w = true ∧ re_match pat r = Some g'
            ∧ g = if group then w +:+ g' else g'.
Proof.
  revert g. induction s as [|c s IH]; intros g.
  - simpl. intros H. exists "", "", g. by destruct group.
  - change (re_match (StarOf cls group :: pat) (String c s))
      with (if cls c
            then match re_match (StarOf cls group :: pat) s with
                 | Some g => Some (if group then String c g else g)
                 | None => re_match pat (String c s)
                 end
            else re_match pat (String c s)).
    destruct (cls c) eqn:Hc.
    + destruct (re_match (StarOf cls group :: pat) s) as [g0|] eqn:E.
      * intros [= <-]. destruct (IH g0 eq_refl) as (w & r & g' & -> & Hw & Hr & ->).
        exists (String c w), r, g'. simpl. rewrite Hc, Hw.
        by destruct group.
      * intros H. exists "", (String c s), g. by destruct group.
    + intros H. exists "", (String c s), g. by destruct group.
Qed.

(** *** The revision marker *)

Lemma digit_not_space (c : ascii) : is_digit c = true → is_space c = false.
Proof.
  unfold is_digit, is_space, in_range.
  rewrite !andb_true_iff, orb_false_iff, andb_false_iff, !Nat.leb_le,
    !Nat.leb_gt, Nat.eqb_neq.
  lia.
Qed.

(** What the pattern matches at the head of a string is a marker, and
    the group is its run of digits. *)
Lemma re_match_revision_sound (s g : string) :
  re_match revision_re s = Some g →
  ∃ m post, s = m +:+ post ∧ is_marker m g.
Proof.
  unfold revision_re. cbn [map list_ascii_of_string app].
  intros H.
  do 10 (apply re_match_lit_inv in H as (? & -> & H)).
  apply re_match_star_inv in H as (ws1 & r1 & g1 & -> & Hws1 & H & ->).
  apply re_match_star_inv in H as (ds & r2 & g2 & -> & Hds & H & ->).
  apply re_match_star_inv in H as (ws2 & r3 & g3 & -> & Hws2 & H & ->).
  apply re_match_lit_inv in H as (post & -> & H).
  simpl in H. injection H as <-. rewrite app_empty_r.
  exists ("$Revision:" +:+ ws1 +:+ ds +:+ ws2 +:+ "$"), post. split.
  - repeat rewrite app_cons. rewrite !app_empty_l.
    by rewrite !app_assoc_str.
  - by exists ws1, ws2.
Qed.

Lemma re_match_revision_runs (ws1 ds ws2 post : string) :
  all_in is_space ws1 = true →
  all_in is_digit ds = true →
  all_in is_space ws2 = true →
  ds ≠ "" ∨ ws2 = "" →
  re_match revision_re ("$Revision:" +:+ ws1 +:+ ds +:+ ws2 +:+ "$" +:+ post)
  = Some ds.
Proof.
  intros Hws1 Hds Hws2 Hnorm.
  unfold revision_re. cbn [map list_ascii_of_string app].
  repeat rewrite app_cons. rewrite app_empty_l.
  rewrite !re_match_lit.
  rewrite (re_match_star_run is_space false _ ws1 _ ds); [done..| |].
  - destruct ds as [|d ds'].
    + destruct Hnorm as [?| ->]; done.
    + simpl in Hds. apply andb_true_iff in Hds as [Hd _].
      rewrite app_cons. simpl. by apply digit_not_space.
  - rewrite <- (app_empty_r ds) at 2.
    apply (re_match_star_run is_digit true); [done| |].
    + destruct ws2 as [|w ws2']; [done|].
      simpl in Hws2. apply andb_true_iff in Hws2 as [Hw _].
      rewrite app_cons. simpl.
      destruct (is_digit w) eqn:E; [|done].
      apply digit_not_space in E. congruence.
    + apply (re_match_star_run is_space false); [done..|].
      by rewrite re_match_lit.
Qed.

(** The pattern matches every marker at the head of a string and
    returns its digits. *)
Lemma re_match_revision_complete (m ds post : string) :
  is_marker m ds →
  re_match revision_re (m +:+ post) = Some ds.
Proof.
  intros (ws1 & ws2 & -> & Hws1 & Hds & Hws2).
  rewrite !app_assoc_str.
  destruct ds as [|d ds'].
  - rewrite app_empty_l.
    rewrite <- (app_assoc_str ws1 ws2).
    change (Some "") with (Some ("" : string)).
    pose proof (re_match_revision_runs (ws1 +:+ ws2) "" "" post) as H.
    rewrite !app_empty_l in H. apply H; auto.
    by rewrite all_in_app, Hws1, Hws2.
  - apply re_match_revision_runs; auto.
Qed.

Lemma re_search_cons (pat : list re_item) (c : ascii) (s : string) :
  re_search pat (String c s)
  = match re_match pat (String c s) with
    | Some g => Some g
    | None => re_search pat s
    end.
Proof. reflexivity. Qed.

Lemma re_search_found (pat : list re_item) (s g : string) :
  re_match pat s = Some g → re_search pat s = Some g.
Proof. intros H. destruct s; simpl; by rewrite H. Qed.

Lemma re_search_revision_sound (s g : string) :
  re_search revision_re s = Some g → has_marker s g.
Proof.
  induction s as [|c s IH].
  - done.
  - rewrite re_search_cons.
    destruct (re_match revision_re (String c s)) eqn:E.
    + intros [= ->]. apply re_match_revision_sound in E as (m & post & E & Hm).
      exists "", m, post. by rewrite app_empty_l.
    + intros H. destruct (IH H) as (pre & m & post & -> & Hm).
      by exists (String c pre), m, post.
Qed.

Lemma re_search_revision_complete (s ds : string) :
  has_marker s ds → ∃ g, re_search revision_re s = Some g.
Proof.
  intros (pre & m & post & -> & Hm).
  induction pre as [|c pre IH].
  - rewrite app_empty_l. exists ds.
    by apply re_search_found, re_match_revision_complete.
  - rewrite app_cons, re_search_cons.
    destruct (re_match revision_re (String c (pre +:+ m +:+ post))); eauto.
Qed.

(** A marker at the head of the string is the one the search returns. *)
Lemma re_search_revision_head (m ds post : string) :
  is_marker m ds → re_search revision_re (m +:+ post) = Some ds.
Proof. intros Hm. by apply re_search_found, re_match_revision_complete. Qed.

(** *** Validation *)

(** Membership in the string of line 234 is membership in
    [[A-Za-z0-9.+~]]. *)
Lemma valid_char (c : ascii) :
  contains valid (String c "") = allowed_char c.
Proof. destruct c as [[] [] [] [] [] [] [] []]; vm_compute; reflexivity. Qed.

Lemma has_invalid_char_true (s : string) :
  has_invalid_char s = true
  ↔ ∃ c, In c (list_ascii_of_string s) ∧ allowed_char c = false.
Proof.
  unfold has_invalid_char. rewrite existsb_exists.
  split; intros (c & Hin & Hc); exists c; split; try done.
  - rewrite valid_char in Hc. by apply negb_true_iff.
  - rewrite valid_char. by apply negb_true_iff.
Qed.

Lemma has_invalid_char_false (s : string) :
  has_invalid_char s = false
  ↔ ∀ c, In c (list_ascii_of_string s) → allowed_char c = true.
Proof.
  split.
  - intros H c Hin. destruct (allowed_char c) eqn:E; [done|].
    assert (has_invalid_char s = true) by (apply has_invalid_char_true; eauto).
    congruence.
  - intros H. destruct (has_invalid_char s) eqn:E; [|done].
    apply has_invalid_char_true in E as (c & Hin & Hc).
    rewrite (H c Hin) in Hc. done.
Qed.

Lemma digit_allowed (c : ascii) : is_digit c = true → allowed_char c = true.
Proof.
  unfold is_digit, allowed_char. intros ->. by rewrite !orb_true_r.
Qed.

Lemma all_in_In (cls : ascii → bool) (s : string) (c : ascii) :
  all_in cls s = true → In c (list_ascii_of_string s) → cls c = true.
Proof.
  induction s as [|b s IH]; simpl; [done|].
  intros [Hb Hs]%andb_true_iff [->|Hin]; auto.
Qed.

(** ['r'] followed by digits is always a valid version. *)
Lemma revision_version_valid (ds : string) :
  all_in is_digit ds = true → has_invalid_char ("r" +:+ ds) = false.
Proof.
  intros Hds. apply has_invalid_char_false. intros c [<-|Hin]; [done|].
  apply digit_allowed. by apply (all_in_In _ ds).
Qed.

Lemma has_marker_digits (s ds : string) :
  has_marker s ds → all_in is_digit ds = true.
Proof. by intros (pre & m & post & _ & ws1 & ws2 & _ & _ & H & _). Qed.

(** With the imports: the value is turned into a string; a string that contains a
    revision marker becomes ['r'] followed by the digits of a marker in
    it (of the marker itself when the value is just that marker), any
    other string is kept; the result is returned when all its characters
    are in [[A-Za-z0-9.+~]] and [InvalidDistro] is raised when one is
    not. *)
Theorem distro_version_imported_normalizes :
  (∀ v, let s := revision_to_version (py_str v) in
        (distro_version_imported v = Raise InvalidDistro
         ∧ ∃ c, In c (list_ascii_of_string s) ∧ allowed_char c = false)
        ∨ (distro_version_imported v = Ok s
           ∧ ∀ c, In c (list_ascii_of_string s) → allowed_char c = true))
  ∧ (∀ s, py_str (SStr s) = s)
  ∧ (∀ m ds, is_marker m ds → distro_version_imported (SStr m) = Ok ("r" +:+ ds))
  ∧ (∀ s ds, has_marker s ds →
             ∃ ds', has_marker s ds'
                    ∧ distro_version_imported (SStr s) = Ok ("r" +:+ ds'))
  ∧ (∀ s, (∀ ds, ¬ has_marker s ds) → revision_to_version s = s)
  ∧ distro_version_imported (SStr "$Revision: 42 $") = Ok "r42"
  ∧ distro_version_imported (SStr "1.2.3+~") = Ok "1.2.3+~"
  ∧ distro_version_imported (SStr "1.2/3") = Raise InvalidDistro
  ∧ distro_version_imported (SInt 42) = Ok "42"
  ∧ is_DistroError InvalidDistro = true.
Proof.
  split_and!; try reflexivity.
  - intros v s. unfold distro_version_imported. fold s.
    destruct (has_invalid_char s) eqn:E.
    + left. split; [done|]. by apply has_invalid_char_true.
    + right. split; [done|]. by apply has_invalid_char_false.
  - intros m ds Hm. unfold distro_version_imported, py_str.
    assert (revision_to_version m = "r" +:+ ds) as ->.
    { unfold revision_to_version. rewrite <- (app_empty_r m) at 1.
      by rewrite (re_search_revision_head m ds "" Hm). }
    rewrite revision_version_valid; [done|].
    by destruct Hm as (ws1 & ws2 & _ & _ & H & _).
  - intros s ds Hs.
    destruct (re_search_revision_complete s ds Hs) as [g Hg].
    exists g. pose proof (re_search_revision_sound s g Hg) as Hsound.
    split; [done|].
    unfold distro_version_imported, py_str.
    assert (revision_to_version s = "r" +:+ g) as ->.
    { unfold revision_to_version. by rewrite Hg. }
    rewrite revision_version_valid; [done|]. by apply (has_marker_digits s).
  - intros s Hno. unfold revision_to_version.
    destruct (re_search revision_re s) as [g|] eqn:E; [|done].
    by destruct (Hno g); apply re_search_revision_sound.
Qed.

(** A marker without white space, and a plain version. *)
Lemma distro_version_imported_normalizes_witness :
  distro_version_imported (SStr "$Revision:7$") = Ok "r7"
  ∧ revision_to_version "1.2.3" = "1.2.3".
Proof.
  destruct distro_version_imported_normalizes as (_ & _ & Hm & _ & Hno & _).
  split.
  - apply (Hm "$Revision:7$" "7"). by exists "", "".
  - apply Hno. intros ds Hds.
    destruct (re_search_revision_complete _ _ Hds) as [g Hg]. discriminate Hg.
Defined.

(** C6: as the module stands, line 229 raises [NameError] for every
    value, the three of the examples among them: no version is ever
    normalised, and the error is not a [DistroException]. *)
Theorem distro_version_name_error (version_val : scalar) :
  _distro_version version_val = Raise (NameError "re")
  ∧ is_DistroError (NameError "re") = false
  ∧ _distro_version (SStr "$Revision: 42 $") = Raise (NameError "re")
  ∧ _distro_version (SStr "1.2.3+~") = Raise (NameError "re")
  ∧ _distro_version (SStr "1.2/3") = Raise (NameError "re").
Proof. split_and!; reflexivity. Qed.

(** ** Variant *)

Lemma foldM_ok_ext {A B : Type} (f g : B → A → result B) (acc : B)
    (l : list A) (r : B) :
  (∀ b x b', f b x = Ok b' → g b x = Ok b') →
  foldM f acc l = Ok r → foldM g acc l = Ok r.
Proof.
  intros Hfg. revert acc. induction l as [|x l IH]; intros acc; simpl; [done|].
  destruct (f acc x) as [b'|e] eqn:E; [|done].
  rewrite (Hfg _ _ _ E). simpl. apply IH.
Qed.

Lemma bind_Ok {A B : Type} (a : A) (k : A → result B) : (Ok a ≫= k) = k a.
Proof. reflexivity. Qed.

Lemma bind_Raise {A B : Type} (e : exn) (k : A → result B) :
  (Raise e ≫= k) = Raise e.
Proof. reflexivity. Qed.

(** The body of the constructor, one call deep. *)
Lemma Variant_init_S (depth : nat) (variant_name : string)
    (variants_props : gmap string (gmap string prop_val)) :
  Variant.__init__ (S depth) variant_name variants_props
  = (props ← getitem variants_props variant_name;
     if negb (has_key props "stacks") && negb (has_key props "extends")
     then Raise InvalidDistro
     else
       let stack_names0 := py_list (default (PList []) (props !! "stacks")) in
       match props !! "extends" with
       | Some extends =>
           let extends := str_or_list extends in
           stack_names1 ←
             foldM (λ (acc : list string) (e : string),
                      parent_variant ← Variant.__init__ depth e variants_props;
                      Ok (Variant.stack_names parent_variant ++ acc)%list)
                   stack_names0 extends;
           Ok (Variant.mk variant_name extends stack_names1 stack_names0 props)
       | None => Ok (Variant.mk variant_name [] stack_names0 stack_names0 props)
       end).
Proof. reflexivity. Qed.

(** A variant that resolves within some depth resolves to the same value
    within any greater depth. *)
Lemma Variant_init_mono (depth : nat) (variant_name : string)
    (variants_props : gmap string (gmap string prop_val)) (v : Variant.t) :
  Variant.__init__ depth variant_name variants_props = Ok v →
  Variant.__init__ (S depth) variant_name variants_props = Ok v.
Proof.
  revert variant_name v. induction depth as [|depth IH]; intros n v; [done|].
  rewrite (Variant_init_S (S depth) n), (Variant_init_S depth n).
  destruct (getitem variants_props n) as [props|e]; [|done].
  rewrite !bind_Ok.
  destruct (negb (has_key props "stacks") && negb (has_key props "extends"));
    [done|].
  cbv zeta. destruct (props !! "extends") as [ext|]; [|done].
  match goal with
  | |- (foldM ?f ?a ?l ≫= _) = _ → (foldM ?g _ _ ≫= _) = _ =>
      destruct (foldM f a l) as [r|e] eqn:E; [|done];
      rewrite (foldM_ok_ext f g a l r); [done| |done]
  end.
  intros b x b'.
  destruct (Variant.__init__ depth x variants_props) as [pv|e] eqn:Ep; [|done].
  by rewrite (IH _ _ Ep).
Qed.

(** The loop of lines 122-124 puts the list of each parent in front of
    what it has so far: the last parent ends up first. *)
Lemma parents_fold (depth : nat)
    (variants_props : gmap string (gmap string prop_val))
    (extends : list string) (vs : list Variant.t) (acc : list string) :
  Forall2 (λ e v, Variant.__init__ depth e variants_props = Ok v) extends vs →
  foldM (λ (acc : list string) (e : string),
           parent_variant ← Variant.__init__ depth e variants_props;
           Ok (Variant.stack_names parent_variant ++ acc)%list)
        acc extends
  = Ok (concat (reverse (Variant.stack_names <$> vs)) ++ acc)%list.
Proof.
  intros H. revert acc. induction H as [|e v es vs He _ IH]; intros acc.
  - done.
  - simpl. rewrite He. simpl. rewrite IH.
    rewrite reverse_cons, concat_app. simpl.
    by rewrite app_nil_r, <- app_assoc.
Qed.

Lemma has_key_true {V : Type} (d : gmap string V) (key : string) (v : V) :
  d !! key = Some v → has_key d key = true.
Proof. intros H. unfold has_key. apply bool_decide_eq_true. eauto. Qed.

(** A variant with [extends], all of whose parents resolve. *)
Lemma Variant_init_extends (depth : nat)
    (variants_props : gmap string (gmap string prop_val))
    (variant_name : string) (props : gmap string prop_val)
    (extends : prop_val) (vs : list Variant.t) :
  variants_props !! variant_name = Some props →
  props !! "extends" = Some extends →
  Forall2 (λ e v, Variant.__init__ depth e variants_props = Ok v)
          (str_or_list extends) vs →
  Variant.__init__ (S depth) variant_name variants_props
  = Ok (Variant.mk variant_name (str_or_list extends)
          (concat (reverse (Variant.stack_names <$> vs))
           ++ py_list (default (PList []) (props !! "stacks")))%list
          (py_list (default (PList []) (props !! "stacks"))) props).
Proof.
  intros Hprops Hext Hvs. rewrite Variant_init_S.
  unfold getitem. rewrite Hprops, bind_Ok.
  rewrite (has_key_true _ _ _ Hext), andb_false_r, Hext. cbv zeta.
  by rewrite (parents_fold _ _ _ vs).
Qed.

(** A variant without [extends]. *)
Lemma Variant_init_leaf (depth : nat)
    (variants_props : gmap string (gmap string prop_val))
    (variant_name : string) (props : gmap string prop_val) (stacks : prop_val) :
  variants_props !! variant_name = Some props →
  props !! "extends" = None →
  props !! "stacks" = Some stacks →
  Variant.__init__ (S depth) variant_name variants_props
  = Ok (Variant.mk variant_name [] (py_list stacks) (py_list stacks) props).
Proof.
  intros Hprops Hext Hst. rewrite Variant_init_S.
  unfold getitem. rewrite Hprops, bind_Ok.
  by rewrite (has_key_true _ _ _ Hst), Hext, Hst.
Qed.

(** Lines 106-107. *)
Lemma Variant_init_invalid (depth : nat)
    (variants_props : gmap string (gmap string prop_val))
    (variant_name : string) (props : gmap string prop_val) :
  variants_props !! variant_name = Some props →
  props !! "stacks" = None →
  props !! "extends" = None →
  Variant.__init__ (S depth) variant_name variants_props = Raise InvalidDistro.
Proof.
  intros Hprops Hst Hext. rewrite Variant_init_S.
  unfold getitem, has_key. rewrite Hprops, bind_Ok, Hst, Hext.
  rewrite !bool_decide_eq_false_2; [done|by intros [? ?]..].
Qed.

Lemma Variant_init_mono_le (d d' : nat) (variant_name : string)
    (variants_props : gmap string (gmap string prop_val)) (v : Variant.t) :
  (d ≤ d')%nat →
  Variant.__init__ d variant_name variants_props = Ok v →
  Variant.__init__ d' variant_name variants_props = Ok v.
Proof.
  induction 1 as [|d' _ IH]; [done|].
  intros H. by apply Variant_init_mono, IH.
Qed.

(** Every variant of a table without cycles resolves, within a depth of
    one more than its rank. *)
Lemma Variant_init_total
    (variants_props : gmap string (gmap string prop_val))
    (rank : string → nat) (variant_name : string) :
  well_ranked variants_props rank →
  is_Some (variants_props !! variant_name) →
  ∃ v, Variant.__init__ (S (rank variant_name)) variant_name variants_props
       = Ok v.
Proof.
  intros Hwf. remember (rank variant_name) as k eqn:Hk.
  revert variant_name Hk.
  induction k as [k IH] using lt_wf_ind. intros n -> [props Hprops].
  destruct (Hwf n props Hprops) as [Hkeys Hparents].
  destruct (props !! "extends") as [ext|] eqn:Hext.
  - assert (∃ vs, Forall2 (λ e v, Variant.__init__ (rank n) e variants_props
                                   = Ok v) (str_or_list ext) vs) as [vs Hvs].
    { specialize (Hparents ext).
      induction (str_or_list ext) as [|e es IHes].
      - by exists [].
      - destruct IHes as [vs Hvs].
        { intros e' ? He'. apply Hparents; [done|]. by right. }
        destruct (Hparents e eq_refl) as [He Hlt]; [by left|].
        destruct (IH (rank e) Hlt e eq_refl He) as [v Hv].
        exists (v :: vs). constructor; [|done].
        apply (Variant_init_mono_le (S (rank e))); [lia | done]. }
    eexists. by apply (Variant_init_extends _ _ _ props ext vs).
  - destruct Hkeys as [[st Hst]|[? ?]]; [|done].
    eexists. by apply (Variant_init_leaf _ _ _ props st).
Qed.

(** C1, amended: for a variant whose [extends] is a list of parents, the
    resolved [stack_names] is the list of the last parent, then that of
    the parent before it, and so on back to the first parent, followed
    by the stacks of the variant itself; nothing is removed. *)
Theorem variant_parents_last_first (depth : nat)
    (variants_props : gmap string (gmap string prop_val))
    (variant_name : string) (props : gmap string prop_val)
    (extends : list string) (vs : list Variant.t) :
  variants_props !! variant_name = Some props →
  props !! "extends" = Some (PList extends) →
  Forall2 (λ e v, Variant.__init__ depth e variants_props = Ok v) extends vs →
  let explicit := py_list (default (PList []) (props !! "stacks")) in
  Variant.__init__ (S depth) variant_name variants_props
  = Ok (Variant.mk variant_name extends
          (concat (reverse (Variant.stack_names <$> vs)) ++ explicit)%list
          explicit props).
Proof.
  intros Hprops Hext Hvs explicit.
  by apply (Variant_init_extends depth variants_props variant_name props
              (PList extends) vs).
Qed.

(** [A] extends [B, C]: the stacks of [C] come first, then those of
    [B], then the stack of [A]. *)
Lemma variant_parents_last_first_witness :
  let propsA : gmap string prop_val :=
    {[ "extends" := PList ["B"; "C"]; "stacks" := PList ["a"] ]} in
  let vp : gmap string (gmap string prop_val) :=
    {[ "A" := propsA;
       "B" := {[ "stacks" := PList ["b1"; "b2"] ]};
       "C" := {[ "stacks" := PList ["c"] ]} ]} in
  Variant.__init__ 2 "A" vp
  = Ok (Variant.mk "A" ["B"; "C"] ["c"; "b1"; "b2"; "a"] ["a"] propsA).
Proof.
  intros propsA vp.
  apply (variant_parents_last_first 1 vp "A" propsA ["B"; "C"]
           [Variant.mk "B" [] ["b1"; "b2"] ["b1"; "b2"]
                       {[ "stacks" := PList ["b1"; "b2"] ]};
            Variant.mk "C" [] ["c"] ["c"] {[ "stacks" := PList ["c"] ]}]).
  - reflexivity.
  - reflexivity.
  - repeat constructor.
Defined.

(** C1, as stated, fails: with parents [B, C] the list of [C] comes
    before the list of [B]. *)
Lemma variant_parents_order_counterexample :
  let vp : gmap string (gmap string prop_val) :=
    {[ "A" := {[ "extends" := PList ["B"; "C"]; "stacks" := PList ["a"] ]};
       "B" := {[ "stacks" := PList ["b"] ]};
       "C" := {[ "stacks" := PList ["c"] ]} ]} in
  ∃ vA vB vC,
    Variant.__init__ 2 "A" vp = Ok vA
    ∧ Variant.__init__ 1 "B" vp = Ok vB
    ∧ Variant.__init__ 1 "C" vp = Ok vC
    ∧ Variant.stack_names vA = ["c"; "b"; "a"]
    ∧ Variant.stack_names vA
      ≠ (Variant.stack_names vB ++ Variant.stack_names vC
         ++ Variant.stack_names_explicit vA)%list.
Proof.
  intros vp. do 3 eexists. split_and!; try reflexivity. done.
Qed.

(** C2: a variant [A] that extends [B] and lists [x], with [B] listing
    [y] and [z], resolves to [y, z, x]; whenever the one parent of a
    variant resolves, its list is put in front of the stacks of the
    variant, every element of both lists being kept. *)
Theorem variant_single_parent (depth : nat)
    (variants_props : gmap string (gmap string prop_val)) :
  (∀ x y z,
     variants_props !! "A"
       = Some {[ "extends" := PStr "B"; "stacks" := PList [x] ]} →
     variants_props !! "B" = Some {[ "stacks" := PList [y; z] ]} →
     ∃ vA, Variant.__init__ (S (S depth)) "A" variants_props = Ok vA
           ∧ Variant.stack_names vA = [y; z; x]
           ∧ Variant.stack_names_explicit vA = [x]
           ∧ Variant.parents vA = ["B"])
  ∧ (∀ variant_name props extends parent vp,
       variants_props !! variant_name = Some props →
       props !! "extends" = Some extends →
       extends = PStr parent ∨ extends = PList [parent] →
       Variant.__init__ depth parent variants_props = Ok vp →
       let explicit := py_list (default (PList []) (props !! "stacks")) in
       Variant.__init__ (S depth) variant_name variants_props
       = Ok (Variant.mk variant_name [parent]
               (Variant.stack_names vp ++ explicit)%list explicit props)).
Proof.
  assert (∀ d variant_name props extends parent vp,
       variants_props !! variant_name = Some props →
       props !! "extends" = Some extends →
       extends = PStr parent ∨ extends = PList [parent] →
       Variant.__init__ d parent variants_props = Ok vp →
       Variant.__init__ (S d) variant_name variants_props
       = Ok (Variant.mk variant_name [parent]
               (Variant.stack_names vp
                ++ py_list (default (PList []) (props !! "stacks")))%list
               (py_list (default (PList []) (props !! "stacks"))) props))
    as Hone.
  { intros d n props ext parent vp Hprops Hext Hshape Hparent.
    rewrite (Variant_init_extends d variants_props n props ext [vp]);
      try done.
    - assert (str_or_list ext = [parent]) as ->
        by (by destruct Hshape as [-> | ->]).
      simpl. by rewrite app_nil_r.
    - assert (str_or_list ext = [parent]) as ->
        by (by destruct Hshape as [-> | ->]).
      by repeat constructor. }
  split; [|by intros; eapply Hone].
  intros x y z HA HB.
  eexists. split.
  - eapply (Hone (S depth) "A" _ (PStr "B") "B"); [exact HA|done|by left|].
    by apply (Variant_init_leaf depth variants_props "B"
                {[ "stacks" := PList [y; z] ]} (PList [y; z])).
  - done.
Qed.

(** The example with [z = x]: the repeated name is kept. *)
Lemma variant_single_parent_witness :
  let vp : gmap string (gmap string prop_val) :=
    {[ "A" := {[ "extends" := PStr "B"; "stacks" := PList ["x"] ]};
       "B" := {[ "stacks" := PList ["y"; "x"] ]} ]} in
  ∃ vA, Variant.__init__ 2 "A" vp = Ok vA
        ∧ Variant.stack_names vA = ["y"; "x"; "x"]
        ∧ Variant.stack_names_explicit vA = ["x"]
        ∧ Variant.parents vA = ["B"].
Proof.
  intros vp.
  apply (proj1 (variant_single_parent 0 vp) "x" "y" "x"); reflexivity.
Defined.

(** ** Distro *)

(** The loop of lines 150-152 keeps the stacks whose version is true. *)
Lemma get_released_stacks_lookup (d : Distro.t) (s : string)
    (obj : DistroStack.t) :
  Distro.get_released_stacks d !! s = Some obj
  ↔ Distro.stacks d !! s = Some obj ∧ truthy (DistroStack.version obj) = true.
Proof.
  unfold Distro.get_released_stacks. revert s obj.
  apply (map_fold_weak_ind
           (λ (r : gmap string DistroStack.t) (m : gmap string DistroStack.t),
              ∀ s obj, r !! s = Some obj
                       ↔ m !! s = Some obj
                         ∧ truthy (DistroStack.version obj) = true)).
  - intros s obj. rewrite !lookup_empty. split; [done | by intros [? _]].
  - intros i x m r Hi IHr s obj.
    destruct (truthy (DistroStack.version x)) eqn:Hx.
    + destruct (decide (i = s)) as [->|Hne].
      * rewrite !lookup_insert_eq. split.
        -- by intros [= <-].
        -- by intros [? _].
      * rewrite !lookup_insert_ne by done. apply IHr.
    + rewrite IHr. destruct (decide (i = s)) as [->|Hne].
      * rewrite lookup_insert_eq, Hi. split.
        -- by intros [? _].
        -- intros [[= ->] Hobj]. congruence.
      * by rewrite lookup_insert_ne.
Qed.

(** C7: the released stacks are the entries of [stacks] whose version is
    a non-empty string, whatever the order of the entries; listing all
    names returns the keys of [stacks]; listing the released names
    (line 144) raises [NameError] for every distribution. *)
Theorem released_stack_names_unbound (d : Distro.t) :
  (∀ s obj,
     Distro.get_released_stacks d !! s = Some obj
     ↔ Distro.stacks d !! s = Some obj
       ∧ ∃ c v, DistroStack.version obj = Some (String c v))
  ∧ Distro.get_stack_names d false = Ok (keys (Distro.stacks d))
  ∧ Distro.get_stack_names d true = Raise (NameError "get_released_stacks").
Proof.
  split_and!; try reflexivity.
  intros s obj. rewrite get_released_stacks_lookup.
  destruct (DistroStack.version obj) as [[|c v]|]; simpl.
  - split; [by intros [_ ?] | by intros [_ (? & ? & ?)]].
  - split; intros [? _]; eauto.
  - split; [by intros [_ ?] | by intros [_ (? & ? & ?)]].
Qed.

(** ** load_distro *)

Lemma head_char_underscore (x : string) (c : ascii) :
  head_char x = Ok c → Ascii.eqb c "_" = startswith "_" x.
Proof.
  destruct x as [|b x]; [done|]. intros [= ->].
  change (startswith "_" (String c x))
    with (if Ascii.eqb "_" c then true else false).
  rewrite (Ascii.eqb_sym c). by destruct (Ascii.eqb "_" c).
Qed.

(** Line 175 keeps, in order, the keys that do not start with an
    underscore. *)
Lemma public_names_filter (ks l : list string) :
  public_names ks = Ok l →
  l = List.filter (λ x, negb (startswith "_" x)) ks.
Proof.
  revert l. induction ks as [|x ks IH]; intros l; [by intros [= <-]|].
  cbn [public_names].
  destruct (head_char x) as [c|] eqn:Hc; [|done]. rewrite bind_Ok.
  destruct (public_names ks) as [rest|]; [|done]. rewrite bind_Ok.
  intros [= <-].
  change (List.filter ?f (x :: ks))
    with (if f x then x :: List.filter f ks else List.filter f ks).
  cbv beta.
  rewrite <- (head_char_underscore x c Hc), (IH rest eq_refl).
  by destruct (Ascii.eqb c "_").
Qed.

(** The try block stops at line 174. *)
Lemma load_distro_try_unbound (raw_data : manifest) :
  load_distro_try raw_data = Raise (NameError "y").
Proof. reflexivity. Qed.

(** C8: whatever the manifest, malformed or not, loading stops at line
    174 with a [NameError], which is not a [DistroException]; no
    distribution is returned.  The four manifests are the malformed
    cases: no [stacks], no [release], a variants entry with two keys, a
    variant with neither [stacks] nor [extends]. *)
Theorem load_distro_malformed (raw_data : manifest) :
  load_distro (Loaded raw_data) = Raise (NameError "y")
  ∧ is_DistroError (NameError "y") = false
  ∧ load_distro (Loaded (mk_manifest (Some "fuerte") None None (Some [])))
    = Raise (NameError "y")
  ∧ load_distro (Loaded (mk_manifest None None (Some ∅) (Some [])))
    = Raise (NameError "y")
  ∧ load_distro
      (Loaded (mk_manifest (Some "fuerte") None (Some ∅)
                 (Some [ {[ "base" := {[ "stacks" := PList ["ros"] ]};
                            "pr2" := {[ "extends" := PStr "base" ]} ]} ])))
    = Raise (NameError "y")
  ∧ load_distro
      (Loaded (mk_manifest (Some "fuerte") None (Some ∅)
                 (Some [ {[ "base" := ∅ ]} ])))
    = Raise (NameError "y").
Proof. split_and!; reflexivity. Qed.

(** No source loads: a loader failure raises [InvalidDistro] and a
    manifest raises [NameError]; [load_distro] never returns a
    distribution. *)
Theorem load_distro_never_returns (source : yaml_load) (d : Distro.t) :
  load_distro source ≠ Ok d
  ∧ load_distro
      (Loaded (mk_manifest (Some "fuerte") None (Some {[ "ros" := ∅ ]})
                           (Some [])))
    = Raise (NameError "y").
Proof. by destruct source. Qed.

(** One step of the loop of lines 214-221 skips a name that starts with
    an underscore and adds any other. *)
Lemma load_stack_step
    (get_rules : manifest → string → result (gmap string string))
    (load_vcs_config : gmap string string → (string → result string)
                       → result (gmap string string))
    (distro_doc : manifest) (stack_props : gmap string (gmap string string))
    (acc acc' : gmap string DistroStack.t) (x : string) :
  load_stack get_rules load_vcs_config distro_doc stack_props acc x = Ok acc' →
  (startswith "_" x = true ∧ acc' = acc)
  ∨ (startswith "_" x = false ∧ ∃ obj, acc' = <[x := obj]> acc).
Proof.
  unfold load_stack.
  destruct (head_char x) as [c|] eqn:Hc; [|done]. rewrite bind_Ok.
  rewrite (head_char_underscore x c Hc).
  destruct (startswith "_" x); [by intros [= <-]; left|].
  destruct (getitem stack_props x) as [props|]; [|done]. rewrite bind_Ok.
  destruct (get_rules distro_doc x) as [rules|]; [|done]. rewrite bind_Ok.
  destruct (DistroStack.__init__ _ _ _ _) as [obj|]; [|done]. rewrite bind_Ok.
  intros [= <-]. right. eauto.
Qed.

(** When the loop ends it has added exactly the given names that do not
    start with an underscore. *)
Lemma load_stack_keys
    (get_rules : manifest → string → result (gmap string string))
    (load_vcs_config : gmap string string → (string → result string)
                       → result (gmap string string))
    (distro_doc : manifest) (stack_props : gmap string (gmap string string))
    (stack_names : list string) (acc stacks : gmap string DistroStack.t) :
  foldM (load_stack get_rules load_vcs_config distro_doc stack_props)
        acc stack_names = Ok stacks →
  ∀ n, is_Some (stacks !! n)
       ↔ is_Some (acc !! n) ∨ (n ∈ stack_names ∧ startswith "_" n = false).
Proof.
  revert acc. induction stack_names as [|x names IH]; intros acc.
  - intros [= <-] n. rewrite elem_of_nil. tauto.
  - cbn [foldM].
    destruct (load_stack _ _ _ _ acc x) as [acc'|] eqn:Hstep; [|done].
    rewrite bind_Ok. intros H n. rewrite (IH _ H n), elem_of_cons.
    apply load_stack_step in Hstep as [[Hx ->]|[Hx [obj ->]]].
    + split; [tauto|]. intros [?|[[->|?] Hn]]; [tauto|congruence|tauto].
    + destruct (decide (x = n)) as [->|Hne].
      * rewrite lookup_insert_eq. split; [|by eauto]. intros _. right. auto.
      * rewrite lookup_insert_ne by done. split; [tauto|].
        intros [?|[[->|?] Hn]]; [tauto|done|tauto].
Qed.

Lemma load_distro_stacks_keys
    (get_rules : manifest → string → result (gmap string string))
    (load_vcs_config : gmap string string → (string → result string)
                       → result (gmap string string))
    (distro_doc : manifest) (stack_names : list string)
    (stacks : gmap string DistroStack.t) :
  _load_distro_stacks get_rules load_vcs_config distro_doc stack_names
  = Ok stacks →
  ∀ n, is_Some (stacks !! n)
       ↔ n ∈ stack_names ∧ startswith "_" n = false.
Proof.
  unfold _load_distro_stacks.
  destruct (m_stacks distro_doc) as [stack_props|]; [|done]. rewrite bind_Ok.
  intros H n. rewrite (load_stack_keys _ _ _ _ _ _ _ H n), lookup_empty.
  split; [|tauto]. intros [[? ?]|?]; done.
Qed.

(* ===================================================================== *)
(** * Further properties of the module *)
(* ===================================================================== *)

(** ** Variant: resolution, errors and invariants *)

Lemma foldM_app {A B : Type} (f : B → A → result B) (acc : B)
    (l1 l2 : list A) :
  foldM f acc (l1 ++ l2)%list = (b ← foldM f acc l1; foldM f b l2).
Proof.
  revert acc. induction l1 as [|x l1 IH]; intros acc; [done|].
  cbn [foldM app]. destruct (f acc x) as [b|e]; [|done].
  rewrite !bind_Ok. apply IH.
Qed.

(** The constructor, one call deep, by cases. *)
Lemma Variant_init_step (depth : nat) (n : string)
    (vp : gmap string (gmap string prop_val)) :
  Variant.__init__ (S depth) n vp
  = match vp !! n with
    | None => Raise (KeyError n)
    | Some props =>
        let explicit := py_list (default (PList []) (props !! "stacks")) in
        if negb (has_key props "stacks") && negb (has_key props "extends")
        then Raise InvalidDistro
        else match props !! "extends" with
             | None => Ok (Variant.mk n [] explicit explicit props)
             | Some ext =>
                 match foldM (prepend_parent depth vp) explicit
                             (str_or_list ext) with
                 | Ok r => Ok (Variant.mk n (str_or_list ext) r explicit props)
                 | Raise e => Raise e
                 end
             end
    end.
Proof.
  rewrite Variant_init_S. unfold getitem.
  destruct (vp !! n) as [props|]; [|done]. rewrite bind_Ok. cbv zeta.
  destruct (negb (has_key props "stacks") && negb (has_key props "extends"));
    [done|].
  destruct (props !! "extends") as [ext|]; [|done].
  change (foldM _ ?a ?l) with (foldM (prepend_parent depth vp) a l).
  by destruct (foldM (prepend_parent depth vp) _ _).
Qed.

Lemma has_key_false {V : Type} (d : gmap string V) (key : string) :
  d !! key = None → has_key d key = false.
Proof. intros H. unfold has_key. apply bool_decide_eq_false. rewrite H. by intros [? ?]. Qed.

Lemma has_key_spec {V : Type} (d : gmap string V) (key : string) :
  has_key d key = true ↔ is_Some (d !! key).
Proof. unfold has_key. apply bool_decide_eq_true. Qed.

(** A loop that raises does so in one of its steps. *)
Lemma foldM_raise_inv {A B : Type} (f : B → A → result B) (acc : B)
    (l : list A) (e : exn) :
  foldM f acc l = Raise e → ∃ b x, x ∈ l ∧ f b x = Raise e.
Proof.
  revert acc. induction l as [|x l IH]; intros acc; [done|].
  cbn [foldM]. destruct (f acc x) as [b|e'] eqn:E.
  - rewrite bind_Ok. intros H. destruct (IH _ H) as (b' & y & Hy & Hf).
    exists b', y. split; [by right | done].
  - rewrite bind_Raise. intros [= ->]. exists acc, x. split; [by left | done].
Qed.

Lemma prepend_parent_ok (depth : nat) (vp : gmap string (gmap string prop_val))
    (acc b : list string) (e : string) :
  prepend_parent depth vp acc e = Ok b
  ↔ ∃ v, Variant.__init__ depth e vp = Ok v
         ∧ b = (Variant.stack_names v ++ acc)%list.
Proof.
  unfold prepend_parent. destruct (Variant.__init__ depth e vp) as [v|err].
  - rewrite bind_Ok. split; [intros [= <-]; eauto | by intros (? & [= <-] & ->)].
  - rewrite bind_Raise. split; [done | by intros (? & ? & _)].
Qed.

Lemma prepend_parent_raise (depth : nat)
    (vp : gmap string (gmap string prop_val))
    (acc : list string) (e : string) (err : exn) :
  prepend_parent depth vp acc e = Raise err
  ↔ Variant.__init__ depth e vp = Raise err.
Proof.
  unfold prepend_parent. destruct (Variant.__init__ depth e vp) as [v|err'].
  - rewrite bind_Ok. split; intros H; discriminate H.
  - rewrite bind_Raise. split; by intros [= ->].
Qed.

(** A loop over the parents that ends has resolved every parent, and its
    result is their lists, last parent first, before the initial list. *)
Lemma parents_fold_inv (depth : nat) (vp : gmap string (gmap string prop_val))
    (extends : list string) (acc r : list string) :
  foldM (prepend_parent depth vp) acc extends = Ok r →
  ∃ vs, Forall2 (λ e v, Variant.__init__ depth e vp = Ok v) extends vs
        ∧ r = (concat (reverse (Variant.stack_names <$> vs)) ++ acc)%list.
Proof.
  revert acc. induction extends as [|e es IH]; intros acc.
  - intros [= <-]. by exists [].
  - cbn [foldM].
    destruct (prepend_parent depth vp acc e) as [b|] eqn:E; [|done].
    apply prepend_parent_ok in E as (v & Hv & ->).
    rewrite bind_Ok. intros H. destruct (IH _ H) as (vs & Hvs & ->).
    exists (v :: vs). split; [by constructor|].
    rewrite fmap_cons, reverse_cons, concat_app. simpl.
    by rewrite app_nil_r, <- app_assoc.
Qed.

Lemma parents_fold_ok (depth : nat) (vp : gmap string (gmap string prop_val))
    (extends : list string) (acc : list string) :
  Forall (λ e, ∃ v, Variant.__init__ depth e vp = Ok v) extends →
  ∃ r, foldM (prepend_parent depth vp) acc extends = Ok r.
Proof.
  intros H. revert acc. induction H as [|e es [v Hv] _ IH]; intros acc.
  - by exists acc.
  - cbn [foldM].
    assert (prepend_parent depth vp acc e
            = Ok (Variant.stack_names v ++ acc)%list) as ->
      by (apply prepend_parent_ok; eauto).
    rewrite bind_Ok. apply IH.
Qed.

Lemma foldM_settled {A B : Type} (f g : B → A → result B) (acc : B)
    (l : list A) :
  (∀ b x, settled (f b x) → g b x = f b x) →
  settled (foldM f acc l) → foldM g acc l = foldM f acc l.
Proof.
  intros Hfg. revert acc. induction l as [|x l IH]; intros acc; [done|].
  cbn [foldM]. destruct (f acc x) as [b|e] eqn:E.
  - rewrite Hfg, E by (by rewrite E). rewrite !bind_Ok. apply IH.
  - rewrite bind_Raise. intros Hs. rewrite Hfg, E by (by rewrite E). done.
Qed.

Lemma Variant_init_settled (depth : nat) (n : string)
    (vp : gmap string (gmap string prop_val)) :
  settled (Variant.__init__ depth n vp) →
  Variant.__init__ (S depth) n vp = Variant.__init__ depth n vp.
Proof.
  revert n. induction depth as [|depth IH]; intros n; [done|].
  rewrite (Variant_init_step (S depth)), (Variant_init_step depth).
  destruct (vp !! n) as [props|]; [|done]. cbv zeta.
  destruct (negb (has_key props "stacks") && negb (has_key props "extends"));
    [done|].
  destruct (props !! "extends") as [ext|]; [|done].
  intros Hs.
  rewrite (foldM_settled (prepend_parent depth vp)
             (prepend_parent (S depth) vp)); [done| |].
  - intros b x. unfold prepend_parent.
    destruct (Variant.__init__ depth x vp) as [v|e] eqn:E.
    + intros _. by rewrite IH, E by (by rewrite E).
    + rewrite bind_Raise. intros He. rewrite IH, E by (rewrite E; by destruct e).
      done.
  - destruct (foldM (prepend_parent depth vp) _ _) as [r|e]; [done|].
    by destruct e.
Qed.

(** X3: the bound on nested calls only ever shows as
    [RecursionDepthExceeded]: any other outcome of resolving a variant, a
    value or an error, is the same under every larger bound. *)
Theorem variant_depth_stable (d d' : nat) (n : string)
    (vp : gmap string (gmap string prop_val)) :
  (d ≤ d')%nat →
  settled (Variant.__init__ d n vp) →
  Variant.__init__ d' n vp = Variant.__init__ d n vp.
Proof.
  induction 1 as [|d' _ IH]; [done|].
  intros Hs. rewrite <- (IH Hs). apply Variant_init_settled.
  by rewrite (IH Hs).
Qed.

(** A variant that needs two nested calls resolves alike under a bound
    of 2 and of 7. *)
Lemma variant_depth_stable_witness :
  let vp : gmap string (gmap string prop_val) :=
    {[ "A" := {[ "extends" := PStr "B"; "stacks" := PList ["x"] ]};
       "B" := {[ "stacks" := PList ["y"] ]} ]} in
  Variant.__init__ 7 "A" vp = Variant.__init__ 2 "A" vp.
Proof.
  intros vp. apply variant_depth_stable; [lia | exact I].
Defined.

(** X1: in a table without cycles, where every variant has [stacks] or
    [extends] and every parent is in the table, each variant resolves as
    soon as the bound on nested calls exceeds its rank. *)
Theorem variant_resolves_when_acyclic
    (vp : gmap string (gmap string prop_val)) (rank : string → nat)
    (n : string) (depth : nat) :
  well_ranked vp rank →
  is_Some (vp !! n) →
  (rank n < depth)%nat →
  ∃ v, Variant.__init__ depth n vp = Ok v.
Proof.
  intros Hwf Hn Hlt. destruct (Variant_init_total vp rank n Hwf Hn) as [v Hv].
  exists v. apply (Variant_init_mono_le (S (rank n))); [lia | done].
Qed.

(** X2: a variant on a cycle of [extends] never resolves, whatever the
    bound on nested calls. *)
Theorem variant_cycle_never_resolves
    (vp : gmap string (gmap string prop_val)) (C : string → Prop) :
  (∀ n, C n → ∃ props ext e,
              vp !! n = Some props ∧ props !! "extends" = Some ext
              ∧ e ∈ str_or_list ext ∧ C e) →
  ∀ depth n v, C n → Variant.__init__ depth n vp ≠ Ok v.
Proof.
  intros Hcyc depth. induction depth as [|depth IH]; intros n v Hn; [done|].
  destruct (Hcyc n Hn) as (props & ext & e & Hprops & Hext & He & HCe).
  rewrite Variant_init_step, Hprops. cbv zeta.
  rewrite (has_key_true _ _ _ Hext), andb_false_r, Hext.
  destruct (foldM (prepend_parent depth vp) _ _) as [r|] eqn:E; [|done].
  apply parents_fold_inv in E as (vs & Hvs & _).
  apply list_elem_of_lookup in He as [i Hi].
  destruct (Forall2_lookup_l _ _ _ _ _ Hvs Hi) as (pv & _ & Hpv).
  by destruct (IH e pv HCe).
Qed.

(** [A] extends [B] and [B] extends [A]: no variant under a bound of
    50. *)
Lemma variant_cycle_never_resolves_witness :
  let vp : gmap string (gmap string prop_val) :=
    {[ "A" := {[ "extends" := PStr "B"; "stacks" := PList ["x"] ]};
       "B" := {[ "extends" := PList ["A"] ]} ]} in
  match Variant.__init__ 50 "A" vp with
  | Ok _ => False
  | Raise _ => True
  end.
Proof.
  intros vp. destruct (Variant.__init__ 50 "A" vp) as [v|e] eqn:E; [|exact I].
  revert E.
  apply (variant_cycle_never_resolves vp (λ n, n = "A" ∨ n = "B"));
    [|by left].
  intros n [-> | ->].
  - exists {[ "extends" := PStr "B"; "stacks" := PList ["x"] ]}, (PStr "B"), "B".
    split_and!; [reflexivity | reflexivity | by left | by right].
  - exists {[ "extends" := PList ["A"] ]}, (PList ["A"]), "A".
    split_and!; [reflexivity | reflexivity | by left | by left].
Defined.

(** [A] extends [B] and [C], which extend nothing: ranks 1, 0, 0. *)
Lemma variant_resolves_when_acyclic_witness :
  let vp : gmap string (gmap string prop_val) :=
    {[ "A" := {[ "extends" := PList ["B"; "C"]; "stacks" := PList ["a"] ]};
       "B" := {[ "stacks" := PList ["b"] ]};
       "C" := {[ "stacks" := PList ["c"] ]} ]} in
  ∃ v, Variant.__init__ 2 "A" vp = Ok v.
Proof.
  intros vp.
  apply (variant_resolves_when_acyclic vp
           (λ n, if String.eqb n "A" then 1%nat else 0%nat)).
  - intros n props Hn. unfold vp in Hn.
    rewrite !lookup_insert_Some, lookup_singleton_Some in Hn.
    destruct Hn as [[<- <-]|[_ [[<- <-]|[_ [<- <-]]]]].
    + split; [left; by eexists|].
      intros ext e [= <-] He. simpl in He.
      apply elem_of_cons in He as [->|He];
        [|apply elem_of_cons in He as [->|He]; [|by apply elem_of_nil in He]].
      * split; [by eexists | simpl; lia].
      * split; [by eexists | simpl; lia].
    + split; [left; by eexists|]. intros ext e Hext. discriminate Hext.
    + split; [left; by eexists|]. intros ext e Hext. discriminate Hext.
  - by eexists.
  - simpl. lia.
Defined.

(** X4: resolution stops at the first parent that fails: when the
    parents listed before it resolve and it raises, the variant raises
    the same exception, and the parents listed after it are not looked
    at. *)
Theorem variant_first_failing_parent (depth : nat)
    (vp : gmap string (gmap string prop_val)) (n : string)
    (props : gmap string prop_val) (ext : prop_val)
    (before after : list string) (e : string) (err : exn) :
  vp !! n = Some props →
  props !! "extends" = Some ext →
  str_or_list ext = (before ++ e :: after)%list →
  Forall (λ p, ∃ v, Variant.__init__ depth p vp = Ok v) before →
  Variant.__init__ depth e vp = Raise err →
  Variant.__init__ (S depth) n vp = Raise err.
Proof.
  intros Hprops Hext Hlist Hbefore He.
  rewrite Variant_init_step, Hprops. cbv zeta.
  rewrite (has_key_true _ _ _ Hext), andb_false_r, Hext, Hlist, foldM_app.
  destruct (parents_fold_ok depth vp before
              (py_list (default (PList []) (props !! "stacks"))) Hbefore)
    as [r ->].
  rewrite bind_Ok. cbn [foldM].
  assert (prepend_parent depth vp r e = Raise err) as ->
    by by apply prepend_parent_raise.
  done.
Qed.

(** [A] extends [B], which resolves, then [D], which is not in the
    table, then [C]: the [KeyError] for [D] is what resolving [A]
    raises. *)
Lemma variant_first_failing_parent_witness :
  let vp : gmap string (gmap string prop_val) :=
    {[ "A" := {[ "extends" := PList ["B"; "D"; "C"] ]};
       "B" := {[ "stacks" := PList ["b"] ]};
       "C" := {[ "stacks" := PList ["c"] ]} ]} in
  Variant.__init__ 2 "A" vp = Raise (KeyError "D").
Proof.
  intros vp.
  apply (variant_first_failing_parent 1 vp "A"
           {[ "extends" := PList ["B"; "D"; "C"] ]}
           (PList ["B"; "D"; "C"]) ["B"] ["C"] "D").
  - reflexivity.
  - reflexivity.
  - reflexivity.
  - constructor; [by eexists | constructor].
  - reflexivity.
Defined.

(** X5: resolving a variant raises nothing but: [RecursionDepthExceeded];
    [KeyError] for a name that is not in the table; [InvalidDistro],
    when some variant of the table has neither [stacks] nor [extends]. *)
Theorem variant_errors (depth : nat) (n : string)
    (vp : gmap string (gmap string prop_val)) (err : exn) :
  Variant.__init__ depth n vp = Raise err →
  err = RecursionDepthExceeded
  ∨ (∃ k, err = KeyError k ∧ vp !! k = None)
  ∨ (err = InvalidDistro
     ∧ ∃ m props, vp !! m = Some props
                  ∧ props !! "stacks" = None ∧ props !! "extends" = None).
Proof.
  revert n. induction depth as [|depth IH]; intros n.
  - intros [= <-]. by left.
  - rewrite Variant_init_step.
    destruct (vp !! n) as [props|] eqn:Hprops.
    2:{ intros [= <-]. right. left. eauto. }
    cbv zeta.
    destruct (has_key props "stacks") eqn:Hst;
      destruct (has_key props "extends") eqn:Hext; cbn [negb andb].
    4:{ intros [= <-]. right. right. split; [done|]. exists n, props.
        split_and!; [done| |].
        - destruct (props !! "stacks") eqn:E; [|done].
          by rewrite (has_key_true _ _ _ E) in Hst.
        - destruct (props !! "extends") eqn:E; [|done].
          by rewrite (has_key_true _ _ _ E) in Hext. }
    all: destruct (props !! "extends") as [ext|]; [|done].
    all: destruct (foldM (prepend_parent depth vp) _ _) as [r|e] eqn:E;
      [done|].
    all: intros [= <-].
    all: apply foldM_raise_inv in E as (b & x & _ & Hx).
    all: apply prepend_parent_raise in Hx; by apply (IH x).
Qed.

(** A parent that is not in the table: the error is a [KeyError] for a
    name the table does not have. *)
Lemma variant_errors_witness :
  let vp : gmap string (gmap string prop_val) :=
    {[ "A" := {[ "extends" := PStr "B" ]} ]} in
  KeyError "B" = RecursionDepthExceeded
  ∨ (∃ k, KeyError "B" = KeyError k ∧ vp !! k = None)
  ∨ (KeyError "B" = InvalidDistro
     ∧ ∃ m props, vp !! m = Some props
                  ∧ props !! "stacks" = None ∧ props !! "extends" = None).
Proof.
  intros vp. exact (variant_errors 2 "A" vp (KeyError "B") eq_refl).
Defined.

(** X6: a resolved variant carries the name it was asked for and the
    properties the table has for it; [stack_names_explicit] is its own
    [stacks] (none when the key is missing), [parents] is its [extends]
    as a list (empty when the key is missing), and [stack_names] always
    ends with [stack_names_explicit], to which it is equal when there is
    no [extends]. *)
Theorem variant_fields (depth : nat) (n : string)
    (vp : gmap string (gmap string prop_val)) (v : Variant.t) :
  Variant.__init__ depth n vp = Ok v →
  ∃ props,
    vp !! n = Some props
    ∧ Variant.name v = n
    ∧ Variant._props v = props
    ∧ Variant.stack_names_explicit v
      = py_list (default (PList []) (props !! "stacks"))
    ∧ Variant.parents v
      = match props !! "extends" with
        | Some ext => str_or_list ext
        | None => []
        end
    ∧ ∃ inherited,
        Variant.stack_names v
        = (inherited ++ Variant.stack_names_explicit v)%list
        ∧ (props !! "extends" = None → inherited = []).
Proof.
  destruct depth as [|depth]; [done|].
  rewrite Variant_init_step.
  destruct (vp !! n) as [props|]; [|done]. cbv zeta.
  destruct (negb (has_key props "stacks") && negb (has_key props "extends"));
    [done|].
  destruct (props !! "extends") as [ext|] eqn:Hext.
  - destruct (foldM (prepend_parent depth vp) _ _) as [r|] eqn:E; [|done].
    apply parents_fold_inv in E as (vs & _ & ->).
    intros [= <-]. exists props. rewrite Hext. split_and!; try done.
    by eexists.
  - intros [= <-]. exists props. rewrite Hext. split_and!; try done.
    by exists [].
Qed.

Lemma variant_fields_witness :
  let vp : gmap string (gmap string prop_val) :=
    {[ "A" := {[ "extends" := PStr "B"; "stacks" := PList ["x"] ]};
       "B" := {[ "stacks" := PList ["y"] ]} ]} in
  ∃ v props,
    Variant.__init__ 2 "A" vp = Ok v
    ∧ vp !! "A" = Some props
    ∧ Variant.name v = "A"
    ∧ Variant.stack_names_explicit v
      = py_list (default (PList []) (props !! "stacks")).
Proof.
  intros vp. eexists.
  destruct (variant_fields 2 "A" vp _ eq_refl)
    as (props & H1 & H2 & _ & H4 & _).
  exists props. split_and!; [reflexivity | exact H1 | exact H2 | exact H4].
Defined.

(** X7: writing the one parent of a variant as a string or as a list
    with that one name makes no difference: two variants of a table with
    the same [stacks], one with [extends: B] and one with
    [extends: [B]], resolve to the same [parents], [stack_names] and
    [stack_names_explicit], or raise the same exception. *)
Theorem variant_extends_str_or_singleton (depth : nat)
    (vp : gmap string (gmap string prop_val)) (n1 n2 b : string)
    (props1 props2 : gmap string prop_val) :
  vp !! n1 = Some props1 →
  vp !! n2 = Some props2 →
  props1 !! "extends" = Some (PStr b) →
  props2 !! "extends" = Some (PList [b]) →
  props1 !! "stacks" = props2 !! "stacks" →
  match Variant.__init__ depth n1 vp, Variant.__init__ depth n2 vp with
  | Ok v1, Ok v2 =>
      Variant.parents v1 = Variant.parents v2
      ∧ Variant.stack_names v1 = Variant.stack_names v2
      ∧ Variant.stack_names_explicit v1 = Variant.stack_names_explicit v2
  | Raise e1, Raise e2 => e1 = e2
  | _, _ => False
  end.
Proof.
  intros H1 H2 E1 E2 Hst. destruct depth as [|depth]; [done|].
  rewrite !Variant_init_step, H1, H2. cbv zeta.
  rewrite (has_key_true _ _ _ E1), (has_key_true _ _ _ E2), !andb_false_r.
  rewrite E1, E2, Hst. cbn [str_or_list].
  by destruct (foldM (prepend_parent depth vp) _ [b]).
Qed.

Lemma variant_extends_str_or_singleton_witness :
  let vp : gmap string (gmap string prop_val) :=
    {[ "A1" := {[ "extends" := PStr "B"; "stacks" := PList ["x"] ]};
       "A2" := {[ "extends" := PList ["B"]; "stacks" := PList ["x"] ]};
       "B" := {[ "stacks" := PList ["y"] ]} ]} in
  match Variant.__init__ 2 "A1" vp, Variant.__init__ 2 "A2" vp with
  | Ok v1, Ok v2 =>
      Variant.parents v1 = Variant.parents v2
      ∧ Variant.stack_names v1 = Variant.stack_names v2
      ∧ Variant.stack_names_explicit v1 = Variant.stack_names_explicit v2
  | Raise e1, Raise e2 => e1 = e2
  | _, _ => False
  end.
Proof.
  intros vp.
  apply (variant_extends_str_or_singleton 2 vp "A1" "A2" "B"
           {[ "extends" := PStr "B"; "stacks" := PList ["x"] ]}
           {[ "extends" := PList ["B"]; "stacks" := PList ["x"] ]});
    reflexivity.
Defined.

(** X8: every name in the [stack_names] of a resolved variant is listed
    under [stacks] by some variant of the table: resolution adds no
    name of its own. *)
Theorem variant_stack_names_provenance (depth : nat) (n : string)
    (vp : gmap string (gmap string prop_val)) (v : Variant.t) (x : string) :
  Variant.__init__ depth n vp = Ok v →
  x ∈ Variant.stack_names v →
  ∃ m props stacks,
    vp !! m = Some props ∧ props !! "stacks" = Some stacks
    ∧ x ∈ py_list stacks.
Proof.
  revert n v. induction depth as [|depth IH]; intros n v; [done|].
  rewrite Variant_init_step.
  destruct (vp !! n) as [props|] eqn:Hprops; [|done]. cbv zeta.
  destruct (negb (has_key props "stacks") && negb (has_key props "extends"));
    [done|].
  assert (x ∈ py_list (default (PList []) (props !! "stacks")) →
          ∃ m props stacks,
            vp !! m = Some props ∧ props !! "stacks" = Some stacks
            ∧ x ∈ py_list stacks) as Hown.
  { destruct (props !! "stacks") as [st|] eqn:Hst; simpl.
    - intros Hx. by exists n, props, st.
    - by intros ?%elem_of_nil. }
  destruct (props !! "extends") as [ext|].
  - destruct (foldM (prepend_parent depth vp) _ _) as [r|] eqn:E; [|done].
    apply parents_fold_inv in E as (vs & Hvs & ->).
    intros [= <-]. cbn [Variant.stack_names].
    rewrite elem_of_app. intros [Hx|Hx]; [|by apply Hown].
    apply list_elem_of_In, in_concat in Hx as (l & Hl & Hxl).
    apply list_elem_of_In in Hl. apply list_elem_of_In in Hxl.
    rewrite elem_of_reverse in Hl.
    apply list_elem_of_fmap in Hl as (pv & -> & Hpv).
    apply list_elem_of_lookup in Hpv as [i Hi].
    destruct (Forall2_lookup_r _ _ _ _ _ Hvs Hi) as (e & _ & He).
    by apply (IH e pv).
  - intros [= <-]. apply Hown.
Qed.

Lemma variant_stack_names_provenance_witness :
  let vp : gmap string (gmap string prop_val) :=
    {[ "A" := {[ "extends" := PStr "B"; "stacks" := PList ["x"] ]};
       "B" := {[ "stacks" := PList ["y"] ]} ]} in
  ∃ m props stacks,
    vp !! m = Some props ∧ props !! "stacks" = Some stacks
    ∧ "y" ∈ py_list stacks.
Proof.
  intros vp.
  eapply (variant_stack_names_provenance 2 "A" vp _ "y" eq_refl).
  simpl. by left.
Defined.

(** ** expand_rule: rules without tokens, rules with one token *)

(** X9: a rule without a dollar sign is returned as it is, whatever the
    stack name, the version, the release name and the revision. *)
Theorem expand_rule_plain (rule stack_name : string)
    (stack_ver : option string) (release_name : string)
    (revision : option string) :
  no_dollar rule = true →
  expand_rule rule stack_name stack_ver release_name revision = Ok rule.
Proof.
  intros Hrule. unfold expand_rule, expand_names.
  rewrite (replace_no_dollar rule) by done.
  destruct (truthy stack_ver); rewrite !(replace_no_dollar rule) by done;
    rewrite find_no_dollar by done; by destruct (truthy revision).
Qed.

Lemma expand_rule_plain_witness :
  expand_rule "https://code.ros.org/svn/ros/stacks/trunk" "ros" (Some "1.4.2")
              "cturtle" None
  = Ok "https://code.ros.org/svn/ros/stacks/trunk".
Proof. apply expand_rule_plain. reflexivity. Defined.

(** X10: in a rule that is one token between two texts without dollar
    signs, the token is replaced by its value, itself without a dollar
    sign, and the texts around it are kept: the stack name for
    [$STACK_NAME], the release name for [$RELEASE_NAME], a non-empty
    version for [$STACK_VERSION], a non-empty revision for
    [$REVISION]. *)
Theorem expand_rule_single_token (pre post stack_name : string)
    (stack_ver : option string) (release_name : string)
    (revision : option string) :
  no_dollar pre = true → no_dollar post = true →
  no_dollar stack_name = true → no_dollar (the_str stack_ver) = true →
  no_dollar release_name = true → no_dollar (the_str revision) = true →
  expand_rule (pre +:+ "$STACK_NAME" +:+ post)
              stack_name stack_ver release_name revision
  = Ok (pre +:+ stack_name +:+ post)
  ∧ expand_rule (pre +:+ "$RELEASE_NAME" +:+ post)
                stack_name stack_ver release_name revision
    = Ok (pre +:+ release_name +:+ post)
  ∧ (truthy stack_ver = true →
     expand_rule (pre +:+ "$STACK_VERSION" +:+ post)
                 stack_name stack_ver release_name revision
     = Ok (pre +:+ the_str stack_ver +:+ post))
  ∧ (truthy revision = true →
     expand_rule (pre +:+ "$REVISION" +:+ post)
                 stack_name stack_ver release_name revision
     = Ok (pre +:+ the_str revision +:+ post)).
Proof.
  intros Hpre Hpost Hn Hv Hr Hrev.
  pose proof (no_dollar_single pre stack_name post Hpre Hn Hpost) as Hn'.
  pose proof (no_dollar_single pre release_name post Hpre Hr Hpost) as Hr'.
  pose proof (no_dollar_single pre (the_str stack_ver) post Hpre Hv Hpost)
    as Hv'.
  split_and!.
  - unfold expand_rule, expand_names.
    rewrite (replace_single pre post) by done.
    destruct (truthy stack_ver);
      rewrite ?(replace_no_dollar (pre +:+ stack_name +:+ post)) by done;
      finish_plain.
  - unfold expand_rule, expand_names.
    rewrite (replace_other_token pre post "$RELEASE_NAME" "$STACK_NAME")
      by auto.
    destruct (truthy stack_ver);
      rewrite ?(replace_other_token pre post "$RELEASE_NAME" "$STACK_VERSION")
        by auto 10;
      rewrite (replace_single pre post) by done;
      finish_plain.
  - intros Htrue. unfold expand_rule, expand_names. rewrite Htrue.
    rewrite (replace_other_token pre post "$STACK_VERSION" "$STACK_NAME")
      by auto 10.
    rewrite (replace_single pre post) by done.
    rewrite (replace_no_dollar (pre +:+ the_str stack_ver +:+ post)) by done.
    finish_plain.
  - intros Htrue. unfold expand_rule, expand_names. rewrite Htrue.
    rewrite (replace_other_token pre post "$REVISION" "$STACK_NAME")
      by auto 10.
    destruct (truthy stack_ver);
      rewrite ?(replace_other_token pre post "$REVISION" "$STACK_VERSION")
        by auto 10;
      rewrite (replace_other_token pre post "$REVISION" "$RELEASE_NAME")
        by auto 10;
      rewrite andb_false_r; cbn [negb];
      by rewrite (replace_single pre post).
Qed.

Lemma expand_rule_single_token_witness :
  expand_rule ("https://code.ros.org/svn/" +:+ "$STACK_NAME" +:+ "/trunk")
              "ros_comm" (Some "1.4.2") "cturtle" (Some "1234")
  = Ok ("https://code.ros.org/svn/" +:+ "ros_comm" +:+ "/trunk")
  ∧ expand_rule ("tags/" +:+ "$STACK_VERSION" +:+ "")
                "ros_comm" (Some "1.4.2") "cturtle" (Some "1234")
    = Ok ("tags/" +:+ "1.4.2" +:+ "").
Proof.
  split.
  - apply (expand_rule_single_token "https://code.ros.org/svn/" "/trunk"
             "ros_comm" (Some "1.4.2") "cturtle" (Some "1234"));
      reflexivity.
  - apply (expand_rule_single_token "tags/" "" "ros_comm" (Some "1.4.2")
             "cturtle" (Some "1234")); reflexivity.
Defined.

(** ** _distro_version with the imports: fixed points and integers *)

Lemma chars_app (a b : string) :
  list_ascii_of_string (a +:+ b)
  = (list_ascii_of_string a ++ list_ascii_of_string b)%list.
Proof. induction a as [|c a IH]; [done|]. rewrite app_cons. simpl. by rewrite IH. Qed.

(** A string with a marker in it has a dollar sign. *)
Lemma has_marker_dollar (s ds : string) :
  has_marker s ds → In "$"%char (list_ascii_of_string s).
Proof.
  intros (pre & m & post & -> & ws1 & ws2 & -> & _).
  rewrite chars_app. apply in_or_app. right.
  rewrite app_assoc_str, chars_app. apply in_or_app. left. by left.
Qed.

(** Without a dollar sign nothing is rewritten. *)
Lemma revision_to_version_plain (s : string) :
  ¬ In "$"%char (list_ascii_of_string s) → revision_to_version s = s.
Proof.
  intros Hs. unfold revision_to_version.
  destruct (re_search revision_re s) as [g|] eqn:E; [|done].
  destruct Hs. by apply (has_marker_dollar s g), re_search_revision_sound.
Qed.

Lemma distro_version_valid_string (s : string) :
  (∀ c, In c (list_ascii_of_string s) → allowed_char c = true) →
  distro_version_imported (SStr s) = Ok s.
Proof.
  intros Hs. unfold distro_version_imported, py_str.
  rewrite revision_to_version_plain.
  - by rewrite (proj2 (has_invalid_char_false s) Hs).
  - intros Hd. by specialize (Hs _ Hd).
Qed.

(** With the imports, a string made of the characters of [[A-Za-z0-9.+~]], the empty
    string among them, is returned as it is; hence a version that was
    accepted is accepted again, unchanged. *)
Theorem distro_version_fixed_point :
  (∀ s, (∀ c, In c (list_ascii_of_string s) → allowed_char c = true) →
        distro_version_imported (SStr s) = Ok s)
  ∧ (∀ v s, distro_version_imported v = Ok s → distro_version_imported (SStr s) = Ok s).
Proof.
  split; [apply distro_version_valid_string|].
  intros v s. unfold distro_version_imported.
  destruct (has_invalid_char (revision_to_version (py_str v))) eqn:E; [done|].
  intros [= <-]. apply distro_version_valid_string.
  by apply has_invalid_char_false.
Qed.

Lemma distro_version_fixed_point_witness :
  distro_version_imported (SStr "") = Ok ""
  ∧ distro_version_imported (SStr "r42") = Ok "r42".
Proof.
  destruct distro_version_fixed_point as [Hvalid Hidem]. split.
  - apply Hvalid. intros c Hc. destruct Hc.
  - apply (Hidem (SStr "$Revision: 42 $")). reflexivity.
Defined.

Lemma uint_digits (d : Decimal.uint) :
  all_in is_digit (NilEmpty.string_of_uint d) = true.
Proof. induction d; simpl; try done; by rewrite IHd. Qed.

Lemma uint_digits_zero (d : Decimal.uint) :
  all_in is_digit (NilZero.string_of_uint d) = true.
Proof. destruct d; try done; apply (uint_digits (_ d)). Qed.

Lemma digits_no_dollar (s : string) :
  all_in is_digit s = true → ¬ In "$"%char (list_ascii_of_string s).
Proof. intros Hs Hd. by pose proof (all_in_In _ _ _ Hs Hd). Qed.

(** With the imports, an integer version is turned into its decimal numeral; every
    integer that is not negative is accepted, with a result made of
    digits, and every negative integer is rejected with [InvalidDistro],
    the minus sign not being a valid character. *)
Theorem distro_version_int (z : Z) :
  (0 ≤ z →
   distro_version_imported (SInt z) = Ok (py_str (SInt z))
   ∧ all_in is_digit (py_str (SInt z)) = true)
  ∧ (z < 0 → distro_version_imported (SInt z) = Raise InvalidDistro).
Proof.
  split.
  - intros Hz.
    assert (all_in is_digit (py_str (SInt z)) = true) as Hd.
    { destruct z as [|p|p]; [done| |lia]. apply uint_digits_zero. }
    split; [|done].
    change (distro_version_imported (SInt z))
      with (distro_version_imported (SStr (py_str (SInt z)))).
    apply distro_version_valid_string. intros c Hc.
    apply digit_allowed. by apply (all_in_In _ _ _ Hd).
  - intros Hz. destruct z as [|p|p]; [lia..|].
    unfold distro_version_imported.
    rewrite revision_to_version_plain.
    + apply (f_equal (λ b : bool, if b then Raise InvalidDistro
                                  else Ok (py_str (SInt (Z.neg p))))
               (x := has_invalid_char (py_str (SInt (Z.neg p)))) (y := true)).
      apply has_invalid_char_true. exists "-"%char. split; [by left | done].
    + intros [Hd|Hd]; [done|].
      by apply (digits_no_dollar _ (uint_digits_zero (Pos.to_uint p))).
Qed.

Lemma distro_version_int_witness :
  distro_version_imported (SInt 2010) = Ok "2010"
  ∧ distro_version_imported (SInt (-1)) = Raise InvalidDistro.
Proof.
  split.
  - apply (proj1 (distro_version_int 2010)). lia.
  - apply (proj2 (distro_version_int (-1))). lia.
Defined.

(** ** DistroStack: equality *)

Lemma DistroStack_eq_spec (a b : DistroStack.t) :
  DistroStack.__eq__ a (DistroStack.IsStack b) = true
  ↔ DistroStack.name a = DistroStack.name b
    ∧ DistroStack.version a = DistroStack.version b
    ∧ DistroStack.vcs_config a = DistroStack.vcs_config b.
Proof.
  unfold DistroStack.__eq__.
  rewrite !andb_true_iff, !bool_decide_eq_true. tauto.
Qed.

(** X13: two stacks are equal exactly when their name, version and
    repository configuration are equal; the rules and the [repo] label
    play no part; the relation is reflexive, symmetric and transitive;
    a stack is never equal to an object that is not a stack. *)
Theorem DistroStack_eq_equivalence :
  (∀ a b, DistroStack.__eq__ a (DistroStack.IsStack b) = true
          ↔ DistroStack.name a = DistroStack.name b
            ∧ DistroStack.version a = DistroStack.version b
            ∧ DistroStack.vcs_config a = DistroStack.vcs_config b)
  ∧ (∀ a rules repo,
       DistroStack.__eq__ a
         (DistroStack.IsStack
            (DistroStack.mk (DistroStack.name a) rules (DistroStack.version a)
                            (DistroStack.vcs_config a) repo)) = true)
  ∧ (∀ a, DistroStack.__eq__ a (DistroStack.IsStack a) = true)
  ∧ (∀ a b, DistroStack.__eq__ a (DistroStack.IsStack b)
            = DistroStack.__eq__ b (DistroStack.IsStack a))
  ∧ (∀ a b c, DistroStack.__eq__ a (DistroStack.IsStack b) = true →
              DistroStack.__eq__ b (DistroStack.IsStack c) = true →
              DistroStack.__eq__ a (DistroStack.IsStack c) = true)
  ∧ (∀ a, DistroStack.__eq__ a DistroStack.NotStack = false).
Proof.
  split_and!.
  - apply DistroStack_eq_spec.
  - intros a rules repo. by apply DistroStack_eq_spec.
  - intros a. by apply DistroStack_eq_spec.
  - intros a b.
    destruct (DistroStack.__eq__ b (DistroStack.IsStack a)) eqn:E.
    + apply DistroStack_eq_spec. apply DistroStack_eq_spec in E.
      destruct E as (-> & -> & ->). done.
    + destruct (DistroStack.__eq__ a (DistroStack.IsStack b)) eqn:E'; [|done].
      apply DistroStack_eq_spec in E'.
      assert (DistroStack.__eq__ b (DistroStack.IsStack a) = true) as E''.
      { apply DistroStack_eq_spec. destruct E' as (-> & -> & ->). done. }
      congruence.
  - intros a b c Hab%DistroStack_eq_spec Hbc%DistroStack_eq_spec.
    apply DistroStack_eq_spec.
    destruct Hab as (-> & -> & ->). done.
  - done.
Qed.

(** Two stacks that differ in their rules and label only, and a third
    equal to the second. *)
Lemma DistroStack_eq_equivalence_witness :
  let a := DistroStack.mk "ros" ∅ (Some "1.4.2") ∅ None in
  let b := DistroStack.mk "ros" {[ "repo" := "wg" ]} (Some "1.4.2") ∅
                          (Some "wg") in
  DistroStack.__eq__ a (DistroStack.IsStack b) = true.
Proof.
  intros a b.
  destruct DistroStack_eq_equivalence as (_ & _ & Hrefl & _ & Htrans & _).
  apply (Htrans a b b); [reflexivity | apply Hrefl].
Defined.

(** ** _load_distro_stacks *)

Section StacksProperties.

Variable get_rules : manifest → string → result (gmap string string).
Variable load_vcs_config :
  gmap string string → (string → result string) → result (gmap string string).

Lemma load_stack_stores (distro_doc : manifest)
    (stack_props : gmap string (gmap string string))
    (acc acc' : gmap string DistroStack.t) (x : string) :
  load_stack get_rules load_vcs_config distro_doc stack_props acc x = Ok acc' →
  acc' = acc ∨ ∃ obj, acc' = <[x := obj]> acc
                      ∧ stored get_rules load_vcs_config distro_doc stack_props x obj.
Proof.
  unfold load_stack.
  destruct (head_char x) as [c|]; [|done]. rewrite bind_Ok.
  destruct (Ascii.eqb c "_"); [by intros [= <-]; left|].
  destruct (stack_props !! x) as [props|] eqn:Hprops; unfold getitem;
    rewrite Hprops; [|done].
  rewrite bind_Ok.
  destruct (get_rules distro_doc x) as [rules|] eqn:Hrules; [|done].
  rewrite bind_Ok. unfold DistroStack.__init__.
  destruct (load_vcs_config rules _) as [vcs|] eqn:Hvcs; [|done].
  rewrite !bind_Ok. intros [= <-]. right. eexists. split; [done|].
  by exists props, rules.
Qed.

Lemma load_stack_fold_stores (distro_doc : manifest)
    (stack_props : gmap string (gmap string string))
    (stack_names : list string) (acc stacks : gmap string DistroStack.t) :
  foldM (load_stack get_rules load_vcs_config distro_doc stack_props)
        acc stack_names = Ok stacks →
  (∀ n obj, acc !! n = Some obj → stored get_rules load_vcs_config distro_doc stack_props n obj) →
  ∀ n obj, stacks !! n = Some obj → stored get_rules load_vcs_config distro_doc stack_props n obj.
Proof.
  revert acc. induction stack_names as [|x names IH]; intros acc.
  - by intros [= <-].
  - cbn [foldM].
    destruct (load_stack _ _ _ _ acc x) as [acc'|] eqn:Hstep; [|done].
    rewrite bind_Ok. intros H Hacc. apply (IH _ H).
    apply load_stack_stores in Hstep as [->|(obj & -> & Hobj)]; [done|].
    intros n o. destruct (decide (x = n)) as [->|Hne].
    + rewrite lookup_insert_eq. by intros [= <-].
    + rewrite lookup_insert_ne by done. apply Hacc.
Qed.

(** X14: when [_load_distro_stacks] returns, the keys of its result are
    exactly the requested names that do not start with an underscore;
    a name with an underscore is left out even when it is a key of
    [stacks]. *)
Theorem load_distro_stacks_names (distro_doc : manifest)
    (stack_names : list string) (stacks : gmap string DistroStack.t) :
  _load_distro_stacks get_rules load_vcs_config distro_doc stack_names
  = Ok stacks →
  ∀ n, is_Some (stacks !! n)
       ↔ n ∈ stack_names ∧ startswith "_" n = false.
Proof. apply load_distro_stacks_keys. Qed.

(** X15: every stack [_load_distro_stacks] returns is stored under its
    own name, with the version found under [version] in its properties
    (as it is written there, [None] when missing), the rules
    [get_rules] gives for it, and the [repo] entry of those rules as its
    label. *)
Theorem load_distro_stacks_stored (distro_doc : manifest)
    (stack_names : list string) (stacks : gmap string DistroStack.t)
    (n : string) (obj : DistroStack.t) :
  _load_distro_stacks get_rules load_vcs_config distro_doc stack_names
  = Ok stacks →
  stacks !! n = Some obj →
  ∃ stack_props props rules,
    m_stacks distro_doc = Some stack_props
    ∧ stack_props !! n = Some props
    ∧ get_rules distro_doc n = Ok rules
    ∧ DistroStack.name obj = n
    ∧ DistroStack.version obj = props !! "version"
    ∧ DistroStack._rules obj = rules
    ∧ DistroStack.repo obj = rules !! "repo".
Proof.
  unfold _load_distro_stacks.
  destruct (m_stacks distro_doc) as [stack_props|]; [|done]. rewrite bind_Ok.
  intros H Hn.
  destruct (load_stack_fold_stores _ _ _ _ _ H (λ n obj, ltac:(done)) n obj Hn)
    as (props & rules & ? & ? & _ & ? & ? & ? & ?).
  by exists stack_props, props, rules.
Qed.

(** X16: [_load_distro_stacks] raises [DistroException] when the
    manifest has no [stacks], whatever names are asked for; once the
    names before it are loaded, an empty name raises [IndexError] and a
    name without underscore that is not a key of [stacks] raises
    [KeyError]. *)
Theorem load_distro_stacks_errors (distro_doc : manifest) :
  (m_stacks distro_doc = None →
   ∀ stack_names,
     _load_distro_stacks get_rules load_vcs_config distro_doc stack_names
     = Raise DistroException)
  ∧ (∀ stack_props before after loaded n,
       m_stacks distro_doc = Some stack_props →
       foldM (load_stack get_rules load_vcs_config distro_doc stack_props)
             ∅ before = Ok loaded →
       (n = "" →
        _load_distro_stacks get_rules load_vcs_config distro_doc
          (before ++ n :: after)%list = Raise IndexError)
       ∧ (n ≠ "" → startswith "_" n = false → stack_props !! n = None →
          _load_distro_stacks get_rules load_vcs_config distro_doc
            (before ++ n :: after)%list = Raise (KeyError n))).
Proof.
  split.
  - intros Hnone names. unfold _load_distro_stacks. by rewrite Hnone.
  - intros stack_props before after loaded n Hsome Hbefore.
    unfold _load_distro_stacks. rewrite Hsome, bind_Ok, foldM_app, Hbefore.
    rewrite bind_Ok. cbn [foldM]. split.
    + intros ->. done.
    + intros Hne Hn Hmiss.
      assert (load_stack get_rules load_vcs_config distro_doc stack_props
                loaded n = Raise (KeyError n)) as ->; [|done].
      unfold load_stack.
      destruct n as [|c n']; [done|]. cbn [head_char]. rewrite bind_Ok.
      change (startswith "_" (String c n'))
        with (if Ascii.eqb "_" c then true else false) in Hn.
      rewrite (Ascii.eqb_sym c).
      destruct (Ascii.eqb "_" c); [done|].
      unfold getitem. by rewrite Hmiss.
Qed.

End StacksProperties.

(** A manifest with one stack and one private key, and helpers that
    return empty rules and an empty configuration. *)
Lemma load_distro_stacks_names_witness :
  let doc := mk_manifest (Some "cturtle") None
               (Some {[ "ros" := {[ "version" := "1.4.2" ]}; "_rules" := ∅ ]})
               (Some []) in
  ∃ stacks,
    _load_distro_stacks (λ _ _, Ok ∅) (λ _ _, Ok ∅) doc ["_rules"; "ros"]
    = Ok stacks
    ∧ (is_Some (stacks !! "_rules")
       ↔ "_rules" ∈ ["_rules"; "ros"] ∧ startswith "_" "_rules" = false).
Proof.
  intros doc. eexists. split; [reflexivity|].
  apply (load_distro_stacks_names (λ _ _, Ok ∅) (λ _ _, Ok ∅) doc
           ["_rules"; "ros"]).
  reflexivity.
Defined.

Lemma load_distro_stacks_stored_witness :
  let doc := mk_manifest (Some "cturtle") None
               (Some {[ "ros" := {[ "version" := "1.4.2" ]} ]}) (Some []) in
  ∃ obj stack_props props rules,
    m_stacks doc = Some stack_props
    ∧ stack_props !! "ros" = Some props
    ∧ (Ok ∅ : result (gmap string string)) = Ok rules
    ∧ DistroStack.name obj = "ros"
    ∧ DistroStack.version obj = props !! "version"
    ∧ DistroStack._rules obj = rules
    ∧ DistroStack.repo obj = rules !! "repo".
Proof.
  intros doc. eexists.
  eapply (load_distro_stacks_stored (λ _ _, Ok ∅) (λ _ _, Ok ∅) doc ["ros"]);
    reflexivity.
Defined.

Lemma load_distro_stacks_errors_witness :
  _load_distro_stacks (λ _ _, Ok ∅) (λ _ _, Ok ∅)
    (mk_manifest (Some "cturtle") None None (Some [])) []
  = Raise DistroException
  ∧ _load_distro_stacks (λ _ _, Ok ∅) (λ _ _, Ok ∅)
      (mk_manifest (Some "cturtle") None (Some {[ "ros" := ∅ ]}) (Some []))
      (["ros"] ++ ["navigation"; "ros"])%list
    = Raise (KeyError "navigation").
Proof.
  split.
  - by apply (proj1 (load_distro_stacks_errors (λ _ _, Ok ∅) (λ _ _, Ok ∅) _)).
  - eapply (proj2 (load_distro_stacks_errors (λ _ _, Ok ∅) (λ _ _, Ok ∅) _));
      reflexivity || done.
Defined.

(** ** Distro: the released stacks *)

(** X17: the released stacks are a sub-dictionary of [stacks]: each of
    them is one of [stacks], under the same name, and is listed by
    [get_stack_names]; nothing is dropped exactly when every stack has a
    non-empty version, and nothing is kept exactly when none has. *)
Theorem released_stacks_subdict (d : Distro.t) :
  Distro.get_released_stacks d ⊆ Distro.stacks d
  ∧ (∀ n, is_Some (Distro.get_released_stacks d !! n) →
          ∃ names, Distro.get_stack_names d false = Ok names ∧ n ∈ names)
  ∧ (Distro.get_released_stacks d = Distro.stacks d
     ↔ ∀ n obj, Distro.stacks d !! n = Some obj →
                truthy (DistroStack.version obj) = true)
  ∧ (Distro.get_released_stacks d = ∅
     ↔ ∀ n obj, Distro.stacks d !! n = Some obj →
                truthy (DistroStack.version obj) = false).
Proof.
  split_and!.
  - apply map_subseteq_spec. intros n obj H.
    by apply get_released_stacks_lookup in H as [H _].
  - intros n [obj H]. apply get_released_stacks_lookup in H as [H _].
    eexists. split; [reflexivity|]. unfold keys.
    apply list_elem_of_fmap. exists (n, obj). split; [done|].
    by apply elem_of_map_to_list.
  - split.
    + intros Heq n obj H. rewrite <- Heq in H.
      by apply get_released_stacks_lookup in H as [_ H].
    + intros Hall. apply map_eq. intros n.
      destruct (Distro.stacks d !! n) as [obj|] eqn:E.
      * apply get_released_stacks_lookup. split; [done | by apply (Hall n)].
      * destruct (Distro.get_released_stacks d !! n) as [obj|] eqn:E';
          [|done].
        apply get_released_stacks_lookup in E' as [E' _]. congruence.
  - split.
    + intros Hempty n obj H.
      destruct (truthy (DistroStack.version obj)) eqn:E; [|done].
      assert (Distro.get_released_stacks d !! n = Some obj) as H'
        by by apply get_released_stacks_lookup.
      by rewrite Hempty in H'.
    + intros Hnone. apply map_eq. intros n. rewrite lookup_empty.
      destruct (Distro.get_released_stacks d !! n) as [obj|] eqn:E; [|done].
      apply get_released_stacks_lookup in E as [E Ht].
      rewrite (Hnone n obj E) in Ht. done.
Qed.

(** A distribution with a released and an unreleased stack. *)
Lemma released_stacks_subdict_witness :
  let d := Distro.mk
             {[ "ros" := DistroStack.mk "ros" ∅ (Some "1.4.2") ∅ None;
                "wip" := DistroStack.mk "wip" ∅ None ∅ None ]}
             ∅ "cturtle" "0"
             (mk_manifest (Some "cturtle") None None None) in
  ∃ names, Distro.get_stack_names d false = Ok names ∧ "ros" ∈ names.
Proof.
  intros d.
  apply (proj1 (proj2 (released_stacks_subdict d)) "ros").
  vm_compute. by eexists.
Defined.

(** ** Variant: what a variant inherits *)

(** X18: a resolved variant has resolved each of its parents, one call
    deeper, and its [stack_names] contains every stack name of every
    parent. *)
Theorem variant_inherits_parents (depth : nat) (n : string)
    (vp : gmap string (gmap string prop_val)) (v : Variant.t) (e : string) :
  Variant.__init__ (S depth) n vp = Ok v →
  e ∈ Variant.parents v →
  ∃ pv, Variant.__init__ depth e vp = Ok pv
        ∧ ∀ x, x ∈ Variant.stack_names pv → x ∈ Variant.stack_names v.
Proof.
  rewrite Variant_init_step.
  destruct (vp !! n) as [props|]; [|done]. cbv zeta.
  destruct (negb (has_key props "stacks") && negb (has_key props "extends"));
    [done|].
  destruct (props !! "extends") as [ext|].
  - destruct (foldM (prepend_parent depth vp) _ _) as [r|] eqn:E; [|done].
    apply parents_fold_inv in E as (vs & Hvs & ->).
    intros [= <-]. cbn [Variant.parents Variant.stack_names]. intros He.
    apply list_elem_of_lookup in He as [i Hi].
    destruct (Forall2_lookup_l _ _ _ _ _ Hvs Hi) as (pv & Hpv & Hres).
    exists pv. split; [done|]. intros x Hx.
    apply elem_of_app. left. apply list_elem_of_In, in_concat.
    exists (Variant.stack_names pv). split; apply list_elem_of_In; [|done].
    apply elem_of_reverse, list_elem_of_fmap. exists pv. split; [done|].
    by apply list_elem_of_lookup_2 in Hpv.
  - intros [= <-]. by intros ?%elem_of_nil.
Qed.

Lemma variant_inherits_parents_witness :
  let vp : gmap string (gmap string prop_val) :=
    {[ "A" := {[ "extends" := PList ["B"; "C"]; "stacks" := PList ["a"] ]};
       "B" := {[ "stacks" := PList ["b"] ]};
       "C" := {[ "stacks" := PList ["c"] ]} ]} in
  ∃ v pv, Variant.__init__ 2 "A" vp = Ok v
          ∧ Variant.__init__ 1 "C" vp = Ok pv
          ∧ ∀ x, x ∈ Variant.stack_names pv → x ∈ Variant.stack_names v.
Proof.
  intros vp. eexists.
  destruct (variant_inherits_parents 1 "A" vp _ "C" eq_refl) as (pv & H1 & H2).
  - simpl. right. by left.
  - exists pv. split_and!; [reflexivity | exact H1 | exact H2].
Defined.
